(** * DataReshaper: channel reshaping and numeric rescaling of pixel buffers

    A shallow embedding of [filament::backend::DataReshaper] (both versions of
    the header) and of the C++ arithmetic it relies on, followed by the
    properties of the kernels and of the dispatcher.

    Conventions of the embedding:
    - memory is one flat byte-addressed store shared by the source and the
      destination pointers, so that aliasing between them is visible;
      multi-byte components are laid out little-endian;
    - a run is an [option]: [None] stands for undefined behaviour of the C++
      abstract machine (signed overflow, out-of-range float-to-integer
      conversion, division by zero);
    - [float] is IEEE-754 binary32, computed with [SpecFloat] at precision 24;
      a float value is carried as its 32-bit pattern. *)

From Stdlib Require Import ZArith List Bool Lia.
From Stdlib Require Import Strings.Byte.
From Stdlib Require Import Floats.SpecFloat.
Import ListNotations.

Local Open Scope Z_scope.

(** ** The option monad of defined behaviour *)

Definition bind {A B : Type} (c : option A) (k : A -> option B) : option B :=
  match c with
  | Some a => k a
  | None => None
  end.

Notation "x <- c ;; k" := (bind c (fun x => k))
  (at level 61, c at next level, right associativity).
Notation "' p <- c ;; k" := (bind c (fun x => let p := x in k))
  (at level 61, p pattern, c at next level, right associativity).

(** ** Component types and values *)

(** The component types for which [getMaxValue] is specialised. *)
Inductive ctype : Set :=
| uint8_t
| uint16_t
| int32_t
| uint32_t
| float.

Definition sizeof (t : ctype) : Z :=
  match t with
  | uint8_t => 1
  | uint16_t => 2
  | int32_t | uint32_t | float => 4
  end.

(** A value of a component type: the integer itself for the integer types,
    the 32-bit pattern for [float]. *)
Record value : Set := mkV { ty : ctype; rep : Z }.

(** The representable range of each type (for [float]: of its bit pattern). *)
Definition in_range (t : ctype) (z : Z) : bool :=
  match t with
  | uint8_t => (0 <=? z) && (z <? 2 ^ 8)
  | uint16_t => (0 <=? z) && (z <? 2 ^ 16)
  | int32_t => (- 2 ^ 31 <=? z) && (z <? 2 ^ 31)
  | uint32_t | float => (0 <=? z) && (z <? 2 ^ 32)
  end.

Definition wf_value (v : value) : Prop := in_range (ty v) (rep v) = true.

(** Reduction of an integer modulo the width of [t] (two's complement for the
    signed type). *)
Definition wrap (t : ctype) (z : Z) : Z :=
  match t with
  | uint8_t => z mod 2 ^ 8
  | uint16_t => z mod 2 ^ 16
  | int32_t => (z + 2 ^ 31) mod 2 ^ 32 - 2 ^ 31
  | uint32_t | float => z mod 2 ^ 32
  end.

(** ** binary32 *)

Module F32.

Definition prec : Z := 24.
Definition emax : Z := 128.

Definition sign_bit (s : bool) : Z := if s then 2 ^ 31 else 0.

Definition of_bits (b : Z) : spec_float :=
  let s := Z.testbit b 31 in
  let e := Z.land (Z.shiftr b 23) 255 in
  let f := Z.land b (2 ^ 23 - 1) in
  if e =? 0 then
    match f with
    | Zpos p => S754_finite s p (-149)
    | _ => S754_zero s
    end
  else if e =? 255 then
    if f =? 0 then S754_infinity s else S754_nan
  else
    match f + 2 ^ 23 with
    | Zpos p => S754_finite s p (e - 150)
    | _ => S754_nan
    end.

(** The three fields are packed into 1 + 8 + 23 bits; a NaN result is the
    canonical quiet NaN. *)
Definition to_bits (x : spec_float) : Z :=
  match x with
  | S754_zero s => sign_bit s
  | S754_infinity s => sign_bit s + 255 * 2 ^ 23
  | S754_nan => 255 * 2 ^ 23 + 2 ^ 22
  | S754_finite s m e =>
      if Zpos m <? 2 ^ 23
      then sign_bit s + Zpos m
      else sign_bit s + Z.land (e + 150) 255 * 2 ^ 23
           + Z.land (Zpos m) (2 ^ 23 - 1)
  end.

(** Integer to float: round to nearest, ties to even. *)
Definition of_Z (z : Z) : spec_float := binary_normalize prec emax z 0 false.

(** Float to integer: truncation towards zero; no result for NaN and the
    infinities. *)
Definition to_Z (x : spec_float) : option Z :=
  match x with
  | S754_zero _ => Some 0
  | S754_finite s m e =>
      let mag := if 0 <=? e then Zpos m * 2 ^ e else Zpos m / 2 ^ (- e) in
      Some (if s then - mag else mag)
  | _ => None
  end.

Definition mul (a b : Z) : Z := to_bits (SFmul prec emax (of_bits a) (of_bits b)).
Definition div (a b : Z) : Z := to_bits (SFdiv prec emax (of_bits a) (of_bits b)).

(** The literal [1.0f]. *)
Definition one : Z := to_bits (SFone prec emax).

End F32.

(** ** C++ conversions and arithmetic on component values *)

Definition is_float (t : ctype) : bool :=
  match t with float => true | _ => false end.

Definition is_unsigned32 (t : ctype) : bool :=
  match t with uint32_t => true | _ => false end.

(** Conversion of [v] to type [to] (implicit conversion or cast).
    Float to integer is undefined when the truncated value does not fit. *)
Definition convert (to : ctype) (v : value) : option value :=
  match ty v, to with
  | float, float => Some v
  | float, _ =>
      z <- F32.to_Z (F32.of_bits (rep v)) ;;
      if in_range to z then Some (mkV to z) else None
  | _, float => Some (mkV float (F32.to_bits (F32.of_Z (rep v))))
  | _, _ => Some (mkV to (wrap to (rep v)))
  end.

(** The type in which a binary arithmetic operator is evaluated: integral
    promotion of both operands ([uint8_t] and [uint16_t] become [int]), then
    the usual arithmetic conversions. *)
Definition arith_type (a b : ctype) : ctype :=
  if is_float a || is_float b then float
  else if is_unsigned32 a || is_unsigned32 b then uint32_t
  else int32_t.

(** [a * b] *)
Definition cmul (a b : value) : option value :=
  let t := arith_type (ty a) (ty b) in
  x <- convert t a ;;
  y <- convert t b ;;
  match t with
  | float => Some (mkV float (F32.mul (rep x) (rep y)))
  | uint32_t => Some (mkV uint32_t ((rep x * rep y) mod 2 ^ 32))
  | _ =>
      let z := rep x * rep y in
      if in_range int32_t z then Some (mkV int32_t z) else None
  end.

(** [a / b] *)
Definition cdiv (a b : value) : option value :=
  let t := arith_type (ty a) (ty b) in
  x <- convert t a ;;
  y <- convert t b ;;
  match t with
  | float => Some (mkV float (F32.div (rep x) (rep y)))
  | uint32_t =>
      if rep y =? 0 then None else Some (mkV uint32_t (rep x / rep y))
  | _ =>
      if rep y =? 0 then None
      else
        let z := Z.quot (rep x) (rep y) in
        if in_range int32_t z then Some (mkV int32_t z) else None
  end.

(** ** Memory *)

Definition mem : Type := Z -> byte.

Definition Z_of_byte (b : byte) : Z := Z.of_N (Byte.to_N b).

Definition byte_of_Z (z : Z) : byte :=
  match Byte.of_N (Z.to_N (z mod 256)) with
  | Some b => b
  | None => x00
  end.

Definition upd (m : mem) (a : Z) (b : byte) : mem :=
  fun x => if x =? a then b else m x.

Fixpoint load_le (n : nat) (m : mem) (a : Z) : Z :=
  match n with
  | O => 0
  | S n' => Z_of_byte (m a) + 256 * load_le n' m (a + 1)
  end.

Fixpoint store_le (n : nat) (m : mem) (a : Z) (z : Z) : mem :=
  match n with
  | O => m
  | S n' => store_le n' (upd m a (byte_of_Z z)) (a + 1) (z / 256)
  end.

(** Reading and writing one component of type [t] at address [a]. *)
Definition load (t : ctype) (m : mem) (a : Z) : value :=
  let raw := load_le (Z.to_nat (sizeof t)) m a in
  mkV t (match t with int32_t => wrap int32_t raw | _ => raw end).

Definition store (m : mem) (a : Z) (v : value) : mem :=
  store_le (Z.to_nat (sizeof (ty v))) m a (rep v).

(** A memory holding the bytes of [l] from address [base] on, and [fill]
    everywhere else. *)
Definition mem_of_list (base : Z) (l : list Z) (fill : Z) : mem :=
  fun x =>
    if (base <=? x) && (x <? base + Z.of_nat (length l))
    then byte_of_Z (nth (Z.to_nat (x - base)) l fill)
    else byte_of_Z fill.

Definition dump (m : mem) (base : Z) (n : nat) : list Z :=
  map (fun i => Z_of_byte (m (base + Z.of_nat i))) (seq 0 n).

(** ** The maximum-value table *)

Definition getMaxValue (t : ctype) : value :=
  match t with
  | float => mkV float F32.one
  | int32_t => mkV int32_t 0x7fffffff
  | uint32_t => mkV uint32_t 0xffffffff
  | uint16_t => mkV uint16_t 0x3c00
  | uint8_t => mkV uint8_t 0xff
  end.

(** [in * dstMaxValue / srcMaxValue], assigned to a [dstComponentType]. *)
Definition rescale (dstT srcT : ctype) (v : value) : option value :=
  p <- cmul v (getMaxValue dstT) ;;
  q <- cdiv p (getMaxValue srcT) ;;
  convert dstT q.

(** ** Loops *)

Section ForLoop.
Context {St : Type}.
Variable body : Z -> St -> option St.

(** [n] iterations of [body], the counter starting at [i]. *)
Fixpoint for_iter (n : nat) (i : Z) (s : St) : option St :=
  match n with
  | O => Some s
  | S n' => s' <- body i s ;; for_iter n' (i + 1) s'
  end.

(** [for (size_t i = lo; i < hi; ++i) body] *)
Definition for_loop (lo hi : Z) (s : St) : option St :=
  for_iter (Z.to_nat (hi - lo)) lo s.
End ForLoop.

(** ** Integer conversions between [int] and [size_t] *)

Definition to_int (z : Z) : Z := wrap int32_t z.
Definition to_size_t (z : Z) : Z := z mod 2 ^ 64.

(** [a / b] on [size_t]; division by zero is undefined. *)
Definition size_div (a b : Z) : option Z :=
  if b =? 0 then None else Some (a / b).

(** Address of element [k] of an array of [t] starting at [p]
    ([p[k]], and [p + k] for [p += k]). *)
Definition elem (t : ctype) (p k : Z) : Z := p + k * sizeof t.

(** [l[i]] for an in-bounds index. *)
Definition index (l : list Z) (i : Z) : Z := nth (Z.to_nat i) l 0.

(** ** DataReshaper, the header with numeric rescaling *)

(** [width] as the image kernel computes it. *)
Definition imageWidth (dstComponentType : ctype) (srcBytesPerRow : Z) : Z :=
  (srcBytesPerRow / sizeof dstComponentType) / 4.

(** [template<typename componentType, size_t srcChannelCount, size_t dstChannelCount>
     static void reshape(void* dest, const void* src, size_t numSrcBytes)] *)
Definition reshape (componentType : ctype) (srcChannelCount dstChannelCount : Z)
    (dest src numSrcBytes : Z) (m : mem) : option mem :=
  let maxValue := getMaxValue componentType in
  let in_ := src in
  let out := dest in
  srcWordCount <- size_div (numSrcBytes / sizeof componentType) srcChannelCount ;;
  let minChannelCount := to_int (Z.min srcChannelCount dstChannelCount) in
  '(_, _, m) <-
    for_loop (fun word '(in_, out, m) =>
      m <- for_loop (fun channel m =>
             Some (store m (elem componentType out channel)
                           (load componentType m (elem componentType in_ channel))))
           0 (to_size_t minChannelCount) m ;;
      m <- for_loop (fun channel m =>
             Some (store m (elem componentType out channel) maxValue))
           srcChannelCount dstChannelCount m ;;
      Some (elem componentType in_ srcChannelCount,
            elem componentType out dstChannelCount, m))
    0 srcWordCount (in_, out, m) ;;
  Some m.

(** [template<typename dstComponentType, typename srcComponentType>
     static void reshapeImage(uint8_t* dest, const uint8_t* src, size_t srcBytesPerRow,
         size_t dstBytesPerRow, size_t dstChannelCount, size_t height, bool swizzle03)]

    The [assert(minChannelCount <= 4)] cannot fail, [minChannelCount] being
    [min(4, dstChannelCount)]. *)
Definition reshapeImage (dstComponentType srcComponentType : ctype)
    (dest src srcBytesPerRow dstBytesPerRow dstChannelCount height : Z)
    (swizzle03 : bool) (m : mem) : option mem :=
  let srcChannelCount := 4 in
  let dstMaxValue := getMaxValue dstComponentType in
  let width := imageWidth dstComponentType srcBytesPerRow in
  let minChannelCount := Z.min srcChannelCount dstChannelCount in
  let inds := [if swizzle03 then 2 else 0; 1; if swizzle03 then 0 else 2; 3] in
  '(_, _, m) <-
    for_loop (fun row '(src, dest, m) =>
      let in_ := src in
      let out := dest in
      '(_, _, m) <-
        for_loop (fun column '(in_, out, m) =>
          m <- for_loop (fun channel m =>
                 v <- rescale dstComponentType srcComponentType
                        (load srcComponentType m
                           (elem srcComponentType in_ (index inds channel))) ;;
                 Some (store m (elem dstComponentType out channel) v))
               0 minChannelCount m ;;
          m <- for_loop (fun channel m =>
                 Some (store m (elem dstComponentType out channel) dstMaxValue))
               srcChannelCount dstChannelCount m ;;
          Some (elem srcComponentType in_ srcChannelCount,
                elem dstComponentType out dstChannelCount, m))
        0 width (in_, out, m) ;;
      Some (src + srcBytesPerRow, dest + dstBytesPerRow, m))
    0 height (src, dest, m) ;;
  Some m.

(** *** The dispatcher *)

(** Modelled from the spec: the declarations of [PixelDataFormat],
    [PixelDataType] and [PixelBufferDescriptor] are not part of the sources.
    The enumerations list the members the dispatcher names and one
    constructor for every other member; the descriptor has the fields the
    dispatcher reads. *)
Inductive PixelDataFormat : Set :=
| RGB
| RGBA
| OtherFormat (tag : nat).

Inductive PixelDataType : Set :=
| UBYTE
| FLOAT
| INT
| UINT
| OtherType (tag : nat).

Record PixelBufferDescriptor : Set := mkDescriptor {
  buffer : Z;
  format : PixelDataFormat;
  type : PixelDataType;
  stride : Z;
  alignment : Z
}.

Definition kernel : Type := Z -> Z -> Z -> Z -> Z -> Z -> bool -> mem -> option mem.

Section Dispatcher.

(** [PixelBufferDescriptor::computeDataSize(format, type, stride, height, alignment)],
    declared outside the sources. *)
Variable computeDataSize :
  PixelDataFormat -> PixelDataType -> Z -> Z -> Z -> Z.

(** [static bool reshapeImage(PixelBufferDescriptor* dst, PixelDataType srcType,
       const uint8_t* srcBytes, int srcBytesPerRow, int width, int height, bool swizzle)]

    The result pairs the returned boolean with the memory after the call. *)
Definition reshapeImageDispatch (dst : PixelBufferDescriptor) (srcType : PixelDataType)
    (srcBytes srcBytesPerRow width height : Z) (swizzle : bool) (m : mem)
    : option (bool * mem) :=
  match
    match format dst with
    | RGB => Some 3
    | RGBA => Some 4
    | _ => None
    end
  with
  | None => Some (false, m)
  | Some dstChannelCount =>
      let reshaper : option kernel :=
        match type dst with
        | UBYTE =>
            match srcType with
            | UBYTE => Some (reshapeImage uint8_t uint8_t)
            | FLOAT => Some (reshapeImage uint8_t float)
            | INT => Some (reshapeImage uint8_t int32_t)
            | UINT => Some (reshapeImage uint8_t uint32_t)
            | _ => None
            end
        | FLOAT =>
            match srcType with
            | UBYTE => Some (reshapeImage float uint8_t)
            | FLOAT => Some (reshapeImage float float)
            | INT => Some (reshapeImage float int32_t)
            | UINT => Some (reshapeImage float uint32_t)
            | _ => None
            end
        | INT =>
            match srcType with
            | UBYTE => Some (reshapeImage int32_t uint8_t)
            | FLOAT => Some (reshapeImage int32_t float)
            | INT => Some (reshapeImage int32_t int32_t)
            | UINT => Some (reshapeImage int32_t uint32_t)
            | _ => None
            end
        | UINT =>
            match srcType with
            | UBYTE => Some (reshapeImage uint32_t uint8_t)
            | FLOAT => Some (reshapeImage uint32_t float)
            | INT => Some (reshapeImage uint32_t int32_t)
            | UINT => Some (reshapeImage uint32_t uint32_t)
            | _ => None
            end
        | _ => None
        end in
      match reshaper with
      | None => Some (false, m)
      | Some reshaper =>
          let dstBytes := buffer dst in
          let dstBytesPerRow :=
            to_int (computeDataSize (format dst) (type dst)
                      (if stride dst =? 0 then to_size_t width else stride dst)
                      1 (alignment dst)) in
          m' <- reshaper dstBytes srcBytes (to_size_t srcBytesPerRow)
                  (to_size_t dstBytesPerRow) dstChannelCount (to_size_t height)
                  swizzle m ;;
          Some (true, m')
      end
  end.

End Dispatcher.

(** Modelled from the spec: [computeDataSize] is declared outside the sources;
    the spec describes the destination row size as the packed row (width,
    channel count, component size) padded to the byte alignment. *)
Definition computeDataSize_spec (f : PixelDataFormat) (t : PixelDataType)
    (stride height alignment : Z) : Z :=
  let n := match f with RGB => 3 | RGBA => 4 | _ => 1 end in
  let bpp := match t with UBYTE => n | FLOAT | INT | UINT => n * 4 | _ => n end in
  let bpr := bpp * stride in
  ((bpr + alignment - 1) / alignment * alignment) * height.

Definition supported_format (f : PixelDataFormat) : bool :=
  match f with RGB | RGBA => true | _ => false end.

Definition supported_type (t : PixelDataType) : bool :=
  match t with UBYTE | FLOAT | INT | UINT => true | _ => false end.

(** ** DataReshaper, the older header (copy only) *)

Module V1.

Definition getDefaultAlpha (t : ctype) : value :=
  match t with
  | float => mkV float F32.one
  | int32_t => mkV int32_t 0x7fffffff
  | uint32_t => mkV uint32_t 0xffffffff
  | uint16_t => mkV uint16_t 0x3c00
  | uint8_t => mkV uint8_t 0xff
  end.

Definition reshape (componentType : ctype) (srcChannelCount dstChannelCount : Z)
    (dest src numSrcBytes : Z) (m : mem) : option mem :=
  let defaultValue := getDefaultAlpha componentType in
  let in_ := src in
  let out := dest in
  srcWordCount <- size_div (numSrcBytes / sizeof componentType) srcChannelCount ;;
  let minChannelCount := to_int (Z.min srcChannelCount dstChannelCount) in
  '(_, _, m) <-
    for_loop (fun word '(in_, out, m) =>
      m <- for_loop (fun channel m =>
             Some (store m (elem componentType out channel)
                           (load componentType m (elem componentType in_ channel))))
           0 (to_size_t minChannelCount) m ;;
      m <- for_loop (fun channel m =>
             Some (store m (elem componentType out channel) defaultValue))
           srcChannelCount dstChannelCount m ;;
      Some (elem componentType in_ srcChannelCount,
            elem componentType out dstChannelCount, m))
    0 srcWordCount (in_, out, m) ;;
  Some m.

(** [template<typename dstComponentType> static void reshapeImage(...)]:
    the source is read as [dstComponentType] and copied unscaled. *)
Definition reshapeImage (dstComponentType : ctype)
    (dest src srcBytesPerRow dstBytesPerRow dstChannelCount height : Z)
    (swizzle03 : bool) (m : mem) : option mem :=
  let srcChannelCount := 4 in
  let defaultValue := getDefaultAlpha dstComponentType in
  let width := (srcBytesPerRow / sizeof dstComponentType) / srcChannelCount in
  let minChannelCount := Z.min srcChannelCount dstChannelCount in
  let inds := [if swizzle03 then 2 else 0; 1; if swizzle03 then 0 else 2; 3] in
  '(_, _, m) <-
    for_loop (fun row '(src, dest, m) =>
      let in_ := src in
      let out := dest in
      '(_, _, m) <-
        for_loop (fun column '(in_, out, m) =>
          m <- for_loop (fun channel m =>
                 Some (store m (elem dstComponentType out channel)
                         (load dstComponentType m
                            (elem dstComponentType in_ (index inds channel)))))
               0 minChannelCount m ;;
          m <- for_loop (fun channel m =>
                 Some (store m (elem dstComponentType out channel) defaultValue))
               srcChannelCount dstChannelCount m ;;
          Some (elem dstComponentType in_ srcChannelCount,
                elem dstComponentType out dstChannelCount, m))
        0 width (in_, out, m) ;;
      Some (src + srcBytesPerRow, dest + dstBytesPerRow, m))
    0 height (src, dest, m) ;;
  Some m.

End V1.

(** ** Closed-form addressing

    The kernels advance their [in] and [out] pointers from pixel to pixel and
    from row to row. The definitions below compute every address from the
    loop counters instead; [reshapeImage_closed_form] and
    [reshape_closed_form] show that they run the same loops. *)

Section Engine.
Variables dstT srcT : ctype.
(** what is done to a source component before it is stored *)
Variable f : value -> option value.
(** which source channel a destination channel reads *)
Variable sel : Z -> Z.
Variable fillv : value.
Variables scc dcc ncopy : Z.

Definition copyBody (in_ out channel : Z) (m : mem) : option mem :=
  v <- f (load srcT m (elem srcT in_ (sel channel))) ;;
  Some (store m (elem dstT out channel) v).

Definition fillBody (out channel : Z) (m : mem) : option mem :=
  Some (store m (elem dstT out channel) fillv).

Definition pixelAt (in_ out : Z) (m : mem) : option mem :=
  m1 <- for_loop (copyBody in_ out) 0 ncopy m ;;
  for_loop (fillBody out) scc dcc m1.

Definition pixelsAt (count in_ out : Z) (m : mem) : option mem :=
  for_loop (fun c m => pixelAt (elem srcT in_ (c * scc)) (elem dstT out (c * dcc)) m)
    0 count m.
(** the bytes of destination channel [ch] of the pixel at [out] *)
Definition chanBytes (out ch a : Z) : Prop :=
  elem dstT out ch <= a < elem dstT out ch + sizeof dstT.

(** the bytes of destination pixel [c] of the run of pixels at [out] *)
Definition pixelBytes (out c a : Z) : Prop :=
  elem dstT out (c * dcc) <= a < elem dstT out (c * dcc) + dcc * sizeof dstT.
End Engine.

Definition swizzleIndex (swizzle03 : bool) (channel : Z) : Z :=
  index [if swizzle03 then 2 else 0; 1; if swizzle03 then 0 else 2; 3] channel.

Definition imageAt (dstT srcT : ctype)
    (dest src srcBytesPerRow dstBytesPerRow dstChannelCount height : Z)
    (swizzle03 : bool) (m : mem) : option mem :=
  for_loop (fun row m =>
      pixelsAt dstT srcT (rescale dstT srcT) (swizzleIndex swizzle03)
        (getMaxValue dstT) 4 dstChannelCount (Z.min 4 dstChannelCount)
        (imageWidth dstT srcBytesPerRow)
        (src + row * srcBytesPerRow) (dest + row * dstBytesPerRow) m)
    0 height m.

(** Two optional results that are both undefined or both defined and related. *)
Definition opt_rel {A B : Type} (R : A -> B -> Prop) (x : option A) (y : option B) : Prop :=
  match x, y with
  | Some a, Some b => R a b
  | None, None => True
  | _, _ => False
  end.

(** ** Regions of an image

    The bytes of destination row [row] that a run over [width] pixels of
    [dstChannelCount] components covers, and the bytes of source row [row]
    that it reads from. *)
Definition dstRowBytes (dstT : ctype) (dest dstBytesPerRow width dstChannelCount : Z)
    (row a : Z) : Prop :=
  dest + row * dstBytesPerRow <= a
  < dest + row * dstBytesPerRow + width * dstChannelCount * sizeof dstT.

Definition srcRowBytes (srcT : ctype) (src srcBytesPerRow width : Z) (row a : Z) : Prop :=
  src + row * srcBytesPerRow <= a < src + row * srcBytesPerRow + width * 4 * sizeof srcT.

(** Address of channel [ch] of pixel [col] of row [row], for rows [stride]
    bytes apart and pixels of [n] components of type [t]. *)
Definition channelAddr (t : ctype) (base stride n row col ch : Z) : Z :=
  elem t (base + row * stride) (col * n + ch).

(** ** Concrete images *)

(** The 2 x 1 image of 8-bit RGBA pixels (10, 20, 30, 255), (40, 50, 60, 255)
    at address 0; every other byte of the memory holds 170. *)
Definition image_2x1 : mem := mem_of_list 0 [10; 20; 30; 255; 40; 50; 60; 255] 170.

(** One pixel of four 32-bit unsigned channels 2, 3, 0xffffffff, 1 at address 0. *)
Definition pixel_u32 : mem :=
  mem_of_list 0 [2; 0; 0; 0; 3; 0; 0; 0; 255; 255; 255; 255; 1; 0; 0; 0] 170.

(** One pixel of four float channels 1.0, 0.5, 0.0, 1.0 at address 0
    (a source row of 16 bytes). *)
Definition pixel_f32 : mem :=
  mem_of_list 0 [0; 0; 128; 63; 0; 0; 0; 63; 0; 0; 0; 0; 0; 0; 128; 63] 170.

(** The first [n] bytes from [base] of the memory a run ends in. *)
Definition run_dump (r : option mem) (base : Z) (n : nat) : option (list Z) :=
  m <- r ;; Some (dump m base n).

(** The rescale as the specification words it: the exact quotient
    [sourceValue * dstMaxValue / srcMaxValue] over the integers. *)
Definition exact_rescale (dstT srcT : ctype) (sourceValue : Z) : Z :=
  sourceValue * rep (getMaxValue dstT) / rep (getMaxValue srcT).

(** The number of pixels the specification gives for the generic reshape:
    [floor(numSrcBytes / (componentSize * srcChannelCount))]. *)
Definition pixelCount (t : ctype) (srcChannelCount numSrcBytes : Z) : Z :=
  numSrcBytes / (sizeof t * srcChannelCount).

(** ** A run of rows for any per-component operation

    [imageAt] with the operation applied to a loaded component, the channel
    selection and the fill value left open: the rescaling kernel and the
    copy-only kernel of the older header are both instances. *)
Definition imageRun (dstT srcT : ctype) (f : value -> option value) (sel : Z -> Z)
    (fillv : value) (dest src srcBytesPerRow dstBytesPerRow dstChannelCount height : Z)
    (m : mem) : option mem :=
  for_loop (fun row m =>
      pixelsAt dstT srcT f sel fillv 4 dstChannelCount (Z.min 4 dstChannelCount)
        (imageWidth dstT srcBytesPerRow)
        (src + row * srcBytesPerRow) (dest + row * dstBytesPerRow) m)
    0 height m.

(** ** Where the rescale is defined

    The pairs of types on which [in * dstMaxValue / srcMaxValue] has a result
    for every source value: float arithmetic when the destination is a
    float, unsigned arithmetic always, [int] arithmetic when neither type is
    [int32_t]. *)
Definition is_int32 (t : ctype) : bool :=
  match t with int32_t => true | _ => false end.

Definition rescale_defined (dstT srcT : ctype) : bool :=
  match arith_type srcT dstT with
  | float => is_float dstT
  | uint32_t => true
  | _ => negb (is_int32 dstT || is_int32 srcT)
  end.

(** A memory whose every byte is 127. *)
Definition all_127 : mem := mem_of_list 0 [] 127.

(** ** Full scale

    The pairs of types for which the rescale takes the source's maximum
    value to the destination's: a float destination, or an 8- or 16-bit
    destination fed from an 8-bit, 16-bit or float source. *)
Definition full_scale_exact (dstT srcT : ctype) : bool :=
  is_float dstT || ((sizeof dstT <? 4) && ((sizeof srcT <? 4) || is_float srcT)).

(** ** What the dispatcher selects *)

(** The component type a [PixelDataType] stands for in the dispatcher's
    switches, and the channel count of a [PixelDataFormat]. *)
Definition componentType (t : PixelDataType) : option ctype :=
  match t with
  | UBYTE => Some uint8_t
  | FLOAT => Some float
  | INT => Some int32_t
  | UINT => Some uint32_t
  | _ => None
  end.

Definition channelCount (f : PixelDataFormat) : option Z :=
  match f with
  | RGB => Some 3
  | RGBA => Some 4
  | _ => None
  end.

Definition PixelDataType_eqb (a b : PixelDataType) : bool :=
  match a, b with
  | UBYTE, UBYTE | FLOAT, FLOAT | INT, INT | UINT, UINT => true
  | OtherType x, OtherType y => Nat.eqb x y
  | _, _ => false
  end.

(** ** The dispatcher of the older header *)

Section V1Dispatcher.

(** Whether assertions are compiled out. *)
Variable NDEBUG : bool.

(** [static bool reshapeImage(PixelBufferDescriptor* dst, PixelDataType srcType,
        const uint8_t* srcBytes, int srcBytesPerRow, int dstBytesPerRow, int height,
        bool swizzle)]

    A failed [assert(srcType == dst->type)] ends the program: no result. *)
Definition V1_reshapeImageDispatch (dst : PixelBufferDescriptor) (srcType : PixelDataType)
    (srcBytes srcBytesPerRow dstBytesPerRow height : Z) (swizzle : bool) (m : mem)
    : option (bool * mem) :=
  if negb NDEBUG && negb (PixelDataType_eqb srcType (type dst)) then None
  else
    let dstChannelCount :=
      match format dst with
      | RGB => 3
      | RGBA => 4
      | _ => 0
      end in
    let reshaper : option kernel :=
      match type dst with
      | UBYTE => Some (V1.reshapeImage uint8_t)
      | FLOAT => Some (V1.reshapeImage float)
      | INT => Some (V1.reshapeImage int32_t)
      | UINT => Some (V1.reshapeImage uint32_t)
      | _ => None
      end in
    match reshaper with
    | None => Some (false, m)
    | Some reshaper =>
        if dstChannelCount =? 0 then Some (false, m)
        else
          let dstBytes := buffer dst in
          m' <- reshaper dstBytes srcBytes (to_size_t srcBytesPerRow)
                  (to_size_t dstBytesPerRow) dstChannelCount (to_size_t height)
                  swizzle m ;;
          Some (true, m')
    end.

End V1Dispatcher.

(** ** TMat22, the 2x2 column-major matrix of [math/mat2.h] *)

Module Mat2.

(** Modelled from the spec: [TVec2] is declared in [math/vec2.h], outside the
    sources; the matrix header uses it as a vector of two components indexed
    0 and 1. *)
Record TVec2 (T : Type) : Type := vec2 { x : T; y : T }.

(** [col_type m_value[NUM_COLS]]: the two columns. *)
Record TMat22 (T : Type) : Type := mat { col0 : TVec2 T; col1 : TVec2 T }.

Arguments vec2 {T} _ _.
Arguments x {T} _.
Arguments y {T} _.
Arguments mat {T} _ _.
Arguments col0 {T} _.
Arguments col1 {T} _.

Definition NUM_COLS : Z := 2.

Section Ops.
Context {T : Type}.
(** the values 0 and 1 of [T] *)
Variables zero one : T.

(** [m[column]] read; the assertion [column < NUM_COLS] guards the access. *)
Definition col (m : TMat22 T) (column : Z) : option (TVec2 T) :=
  if (0 <=? column) && (column <? NUM_COLS)
  then Some (if column =? 0 then col0 m else col1 m)
  else None.

(** [m[column] = v] *)
Definition set_col (m : TMat22 T) (column : Z) (v : TVec2 T) : option (TMat22 T) :=
  if (0 <=? column) && (column <? NUM_COLS)
  then Some (if column =? 0 then mat v (col1 m) else mat (col0 m) v)
  else None.

(** [TMat22()] *)
Definition identity : TMat22 T := mat (vec2 one zero) (vec2 zero one).

(** [TMat22(U v)] *)
Definition of_scalar (v : T) : TMat22 T := mat (vec2 v zero) (vec2 zero v).

(** [TMat22(const TVec2<U>& v)] *)
Definition of_diagonal (v : TVec2 T) : TMat22 T :=
  mat (vec2 (x v) zero) (vec2 zero (y v)).

(** [TMat22(A m00, B m01, C m10, D m11)], column-major *)
Definition of_elements (m00 m01 m10 m11 : T) : TMat22 T :=
  mat (vec2 m00 m01) (vec2 m10 m11).

(** [TMat22(row_major_init(m00, m01, m10, m11))] *)
Definition row_major_init (m00 m01 m10 m11 : T) : TMat22 T :=
  of_elements m00 m10 m01 m11.

(** [translation(t)]: [TMat22 r; r[2] = t; return r;] *)
Definition translation (t : TVec2 T) : option (TMat22 T) :=
  set_col identity 2 t.

(** [scaling(const TVec2<A>& s)] and [scaling(A s)] *)
Definition scaling_vec (s : TVec2 T) : TMat22 T := of_diagonal s.
Definition scaling (s : T) : TMat22 T := of_diagonal (vec2 s s).

(** Element [m[c][r]] for indices 0 and 1, and its assignment. *)
Definition get (m : TMat22 T) (c r : Z) : T :=
  let v := if c =? 0 then col0 m else col1 m in
  if r =? 0 then x v else y v.

Definition set (m : TMat22 T) (c r : Z) (e : T) : TMat22 T :=
  let upd_vec v := if r =? 0 then vec2 e (y v) else vec2 (x v) e in
  if c =? 0 then mat (upd_vec (col0 m)) (col1 m) else mat (col0 m) (upd_vec (col1 m)).

(** Matrices live in a store, addressed by their location, so that the two
    references of [swap] may name the same object. *)
Definition store : Type := Z -> TMat22 T.

Definition write (s : store) (o c r : Z) (e : T) : store :=
  fun o' => if o' =? o then set (s o) c r e else s o'.

(** [std::swap(TMat22<T>& lhs, TMat22<T>& rhs)] *)
Definition swap (s : store) (lhs rhs : Z) : store :=
  let t00 := get (s lhs) 0 0 in
  let t01 := get (s lhs) 0 1 in
  let t10 := get (s lhs) 1 0 in
  let t11 := get (s lhs) 1 1 in
  let s := write s lhs 0 0 (get (s rhs) 0 0) in
  let s := write s lhs 0 1 (get (s rhs) 0 1) in
  let s := write s lhs 1 0 (get (s rhs) 1 0) in
  let s := write s lhs 1 1 (get (s rhs) 1 1) in
  let s := write s rhs 0 0 t00 in
  let s := write s rhs 0 1 t01 in
  let s := write s rhs 1 0 t10 in
  let s := write s rhs 1 1 t11 in
  s.

End Ops.

End Mat2.

(** * Properties *)

(** ** Bytes and memory *)

Lemma Z_of_byte_range (b : byte) : 0 <= Z_of_byte b < 256.
Proof.
  unfold Z_of_byte. pose proof (Byte.to_N_bounded b). lia.
Qed.

Lemma Z_of_byte_of_Z (z : Z) : Z_of_byte (byte_of_Z z) = z mod 256.
Proof.
  unfold Z_of_byte, byte_of_Z.
  assert (Hr : 0 <= z mod 256 < 256) by (apply Z.mod_pos_bound; lia).
  destruct (Byte.of_N (Z.to_N (z mod 256))) as [b|] eqn:E.
  - apply Byte.to_of_N in E. rewrite E. lia.
  - apply Byte.of_N_None_iff in E. lia.
Qed.

Lemma upd_same (m : mem) a b : upd m a b a = b.
Proof. unfold upd. now rewrite Z.eqb_refl. Qed.

Lemma upd_other (m : mem) a b x : x <> a -> upd m a b x = m x.
Proof. unfold upd. intros H. apply Z.eqb_neq in H. now rewrite H. Qed.

Lemma store_le_other n : forall (m : mem) a z x,
  x < a \/ a + Z.of_nat n <= x -> store_le n m a z x = m x.
Proof.
  induction n as [|n IH]; intros m a z x Hx; cbn [store_le]; [reflexivity|].
  rewrite IH by lia. apply upd_other. lia.
Qed.

Lemma load_le_ext n : forall (m1 m2 : mem) a,
  (forall x, a <= x < a + Z.of_nat n -> m1 x = m2 x) ->
  load_le n m1 a = load_le n m2 a.
Proof.
  induction n as [|n IH]; intros m1 m2 a H; cbn [load_le]; [reflexivity|].
  rewrite (H a) by lia. rewrite (IH m1 m2 (a + 1)); [reflexivity|].
  intros x Hx. apply H. lia.
Qed.

Lemma load_le_range n : forall (m : mem) a, 0 <= load_le n m a < 256 ^ Z.of_nat n.
Proof.
  induction n as [|n IH]; intros m a.
  - simpl. lia.
  - cbn [load_le]. rewrite Nat2Z.inj_succ, Z.pow_succ_r by lia.
    pose proof (Z_of_byte_range (m a)). specialize (IH m (a + 1)). lia.
Qed.

Lemma load_store_le n : forall (m : mem) a z,
  load_le n (store_le n m a z) a = z mod 256 ^ Z.of_nat n.
Proof.
  induction n as [|n IH]; intros m a z.
  - simpl. now rewrite Z.mod_1_r.
  - cbn [load_le store_le]. rewrite store_le_other by lia.
    rewrite upd_same, Z_of_byte_of_Z, IH.
    rewrite Nat2Z.inj_succ, Z.pow_succ_r by lia.
    assert (Hp : 0 < 256 ^ Z.of_nat n) by (apply Z.pow_pos_nonneg; lia).
    rewrite (Z.rem_mul_r z 256 (256 ^ Z.of_nat n)) by lia. reflexivity.
Qed.

Lemma sizeof_pos t : 0 < sizeof t.
Proof. destruct t; simpl; lia. Qed.

Lemma store_other (m : mem) a v x :
  x < a \/ a + sizeof (ty v) <= x -> store m a v x = m x.
Proof.
  intros H. unfold store. apply store_le_other.
  pose proof (sizeof_pos (ty v)). lia.
Qed.

Lemma load_ext t (m1 m2 : mem) a :
  (forall x, a <= x < a + sizeof t -> m1 x = m2 x) -> load t m1 a = load t m2 a.
Proof.
  intros H. unfold load.
  rewrite (load_le_ext _ m1 m2 a); [reflexivity|].
  intros x Hx. apply H. pose proof (sizeof_pos t). lia.
Qed.

Lemma load_ty t m a : ty (load t m a) = t.
Proof. reflexivity. Qed.

Lemma load_wf t m a : wf_value (load t m a).
Proof.
  unfold wf_value, load. cbn [ty rep].
  pose proof (load_le_range (Z.to_nat (sizeof t)) m a) as H.
  destruct t; cbn [sizeof in_range wrap] in *;
    try (change (256 ^ Z.of_nat (Z.to_nat 1)) with 256 in H);
    try (change (256 ^ Z.of_nat (Z.to_nat 2)) with 65536 in H);
    try (change (256 ^ Z.of_nat (Z.to_nat 4)) with 4294967296 in H);
    try (apply andb_true_intro; split; [apply Z.leb_le | apply Z.ltb_lt]; lia).
  pose proof (Z.mod_pos_bound (load_le (Z.to_nat 4) m a + 2 ^ 31) (2 ^ 32) ltac:(lia)).
  apply andb_true_intro; split; [apply Z.leb_le | apply Z.ltb_lt]; lia.
Qed.

Lemma in_range_spec t z :
  in_range t z = true <->
  match t with
  | uint8_t => 0 <= z < 2 ^ 8
  | uint16_t => 0 <= z < 2 ^ 16
  | int32_t => - 2 ^ 31 <= z < 2 ^ 31
  | uint32_t | float => 0 <= z < 2 ^ 32
  end.
Proof.
  destruct t; cbn [in_range]; rewrite andb_true_iff, Z.leb_le, Z.ltb_lt; reflexivity.
Qed.

Lemma load_store_same (m : mem) a v :
  wf_value v -> load (ty v) (store m a v) a = v.
Proof.
  destruct v as [t z]. unfold wf_value, load, store. cbn [ty rep].
  intros H. apply in_range_spec in H. f_equal.
  rewrite load_store_le.
  destruct t; cbn [sizeof wrap] in *;
    try (change (256 ^ Z.of_nat (Z.to_nat 1)) with 256);
    try (change (256 ^ Z.of_nat (Z.to_nat 2)) with 65536);
    try (change (256 ^ Z.of_nat (Z.to_nat 4)) with 4294967296);
    try (apply Z.mod_small; lia).
  change (2 ^ 32) with 4294967296. change (2 ^ 31) with 2147483648 in *.
  rewrite Z.add_mod_idemp_l by lia.
  rewrite <- (Z.mod_unique (z + 2147483648) 4294967296 0 (z + 2147483648)); lia.
Qed.

Lemma load_store_other t (m : mem) a v b :
  b + sizeof t <= a \/ a + sizeof (ty v) <= b ->
  load t (store m a v) b = load t m b.
Proof.
  intros H. apply load_ext. intros x Hx. apply store_other. lia.
Qed.

(** ** Conversions and arithmetic *)

Arguments F32.mul : simpl never.
Arguments F32.div : simpl never.
Arguments F32.to_bits : simpl never.
Arguments F32.of_bits : simpl never.
Arguments F32.of_Z : simpl never.
Arguments F32.to_Z : simpl never.

Lemma wrap_id t z : in_range t z = true -> wrap t z = z.
Proof.
  intros H. apply in_range_spec in H.
  destruct t; cbn [wrap]; try (apply Z.mod_small; lia).
  change (2 ^ 32) with 4294967296. change (2 ^ 31) with 2147483648 in *.
  rewrite Z.mod_small; lia.
Qed.

Lemma wrap_in_range t z : in_range t (wrap t z) = true.
Proof.
  apply in_range_spec.
  destruct t; cbn [wrap]; try (apply Z.mod_pos_bound; lia).
  pose proof (Z.mod_pos_bound (z + 2 ^ 31) (2 ^ 32) ltac:(lia)). lia.
Qed.

Lemma to_bits_range x : 0 <= F32.to_bits x < 2 ^ 32.
Proof.
  unfold F32.to_bits, F32.sign_bit.
  destruct x as [s|s| |s m e].
  - destruct s; lia.
  - destruct s; lia.
  - lia.
  - destruct (Z.pos m <? 2 ^ 23) eqn:E.
    + apply Z.ltb_lt in E. destruct s; lia.
    + change 255 with (Z.ones 8). change (2 ^ 23 - 1) with (Z.ones 23).
      rewrite !Z.land_ones by lia.
      pose proof (Z.mod_pos_bound (e + 150) (2 ^ 8) ltac:(lia)).
      pose proof (Z.mod_pos_bound (Z.pos m) (2 ^ 23) ltac:(lia)).
      destruct s; lia.
Qed.

Lemma to_bits_in_range x : in_range float (F32.to_bits x) = true.
Proof. apply in_range_spec, to_bits_range. Qed.

Lemma convert_sound t v w :
  wf_value v -> convert t v = Some w -> ty w = t /\ wf_value w.
Proof.
  destruct v as [tv z]. unfold wf_value, convert. cbn [ty rep]. intros Hv H.
  destruct (is_float tv) eqn:Ef.
  - destruct tv; try discriminate.
    destruct t;
      try (injection H as <-; cbn [ty rep]; split; [reflexivity | exact Hv]);
      (destruct (F32.to_Z (F32.of_bits z)) as [k|]; cbn [bind] in H; [|discriminate];
       match type of H with
       | (if ?c then _ else _) = _ => destruct c eqn:E; [|discriminate]
       end;
       injection H as <-; cbn [ty rep]; split; [reflexivity | exact E]).
  - destruct tv; try discriminate;
      destruct t; injection H as <-; cbn [ty rep]; split;
      first [ reflexivity | apply to_bits_in_range
            | match goal with |- in_range ?t _ = true => exact (wrap_in_range t z) end ].
Qed.

Lemma udiv_range x y :
  (y mod 2 ^ 32 =? 0) = false -> 0 <= (x mod 2 ^ 32) / (y mod 2 ^ 32) < 2 ^ 32.
Proof.
  intros E. apply Z.eqb_neq in E.
  assert (Hx : 0 <= x mod 2 ^ 32 < 2 ^ 32) by (apply Z.mod_pos_bound; lia).
  assert (Hy : 0 <= y mod 2 ^ 32 < 2 ^ 32) by (apply Z.mod_pos_bound; lia).
  split; [apply Z.div_pos; lia | apply Z.div_lt_upper_bound; nia].
Qed.

Lemma cdiv_wf a b q : cdiv a b = Some q -> wf_value q.
Proof.
  destruct a as [ta za], b as [tb zb]. unfold cdiv, wf_value. cbn [ty rep].
  destruct ta, tb; cbn [arith_type is_float is_unsigned32 orb convert ty rep bind];
    intros H.
  all: try (injection H as <-; apply to_bits_in_range).
  all: match type of H with
       | (if ?c then _ else _) = _ => destruct c eqn:E0; [discriminate|]
       end.
  all: try (cbv zeta in H;
            match type of H with
            | (if ?c then _ else _) = _ => destruct c eqn:E1; [|discriminate]
            end; injection H as <-; exact E1).
  all: injection H as <-; apply in_range_spec; apply udiv_range; exact E0.
Qed.

Lemma rescale_sound dstT srcT v w :
  rescale dstT srcT v = Some w -> ty w = dstT /\ wf_value w.
Proof.
  unfold rescale. intros H.
  destruct (cmul v (getMaxValue dstT)) as [p|]; cbn [bind] in H; [|discriminate].
  destruct (cdiv p (getMaxValue srcT)) as [q|] eqn:Eq; cbn [bind] in H; [|discriminate].
  apply cdiv_wf in Eq. eapply convert_sound; eauto.
Qed.

(** Between two 8-bit buffers the rescale is [v * 255 / 255] in [int]: no
    overflow, and the value comes back unchanged. *)
Lemma rescale_uint8_id v :
  ty v = uint8_t -> wf_value v -> rescale uint8_t uint8_t v = Some v.
Proof.
  destruct v as [t z]. unfold wf_value. cbn [ty rep]. intros -> H.
  apply in_range_spec in H. change (2 ^ 8) with 256 in H.
  assert (E1 : in_range int32_t (z * 255) = true) by (apply in_range_spec; lia).
  assert (E2 : in_range int32_t z = true) by (apply in_range_spec; lia).
  unfold rescale, cmul, cdiv.
  cbn [getMaxValue ty rep arith_type is_float is_unsigned32 orb convert bind].
  rewrite (wrap_id int32_t z) by exact E2.
  change (wrap int32_t 255) with 255.
  cbv zeta. rewrite E1.
  cbn [bind ty rep arith_type is_float is_unsigned32 orb convert].
  change (wrap int32_t 255) with 255.
  rewrite (wrap_id int32_t (z * 255)) by exact E1.
  change (255 =? 0) with false. cbv iota.
  rewrite Z.quot_mul by lia.
  rewrite E2. cbn [bind convert ty rep].
  rewrite (wrap_id uint8_t z) by (apply in_range_spec; change (2 ^ 8) with 256; lia).
  reflexivity.
Qed.

(** ** Loops *)

Section ForLoopFacts.
Context {St : Type}.
Variable body : Z -> St -> option St.

Lemma for_loop_empty lo hi s : hi <= lo -> for_loop body lo hi s = Some s.
Proof.
  intros H. unfold for_loop. replace (Z.to_nat (hi - lo)) with O by lia. reflexivity.
Qed.

Lemma for_iter_app n1 : forall n2 i s,
  for_iter body (n1 + n2) i s =
  (s1 <- for_iter body n1 i s ;; for_iter body n2 (i + Z.of_nat n1) s1).
Proof.
  induction n1 as [|n1 IH]; intros n2 i s.
  - cbn [for_iter bind Nat.add]. now rewrite Z.add_0_r.
  - cbn [for_iter Nat.add]. destruct (body i s) as [s'|]; cbn [bind]; [|reflexivity].
    rewrite IH. replace (i + 1 + Z.of_nat n1) with (i + Z.of_nat (S n1)) by lia.
    reflexivity.
Qed.

Lemma for_loop_split lo k hi s :
  lo <= k <= hi ->
  for_loop body lo hi s = (s1 <- for_loop body lo k s ;; for_loop body k hi s1).
Proof.
  intros H. unfold for_loop.
  replace (Z.to_nat (hi - lo)) with (Z.to_nat (k - lo) + Z.to_nat (hi - k))%nat by lia.
  rewrite for_iter_app. replace (lo + Z.of_nat (Z.to_nat (k - lo))) with k by lia.
  reflexivity.
Qed.

Lemma for_loop_first lo hi s :
  lo < hi ->
  for_loop body lo hi s = (s1 <- body lo s ;; for_loop body (lo + 1) hi s1).
Proof.
  intros H. unfold for_loop.
  replace (Z.to_nat (hi - lo)) with (S (Z.to_nat (hi - (lo + 1)))) by lia.
  reflexivity.
Qed.

(** A completed loop went through each of its iterations. *)
Lemma for_loop_at lo hi k s s' :
  for_loop body lo hi s = Some s' -> lo <= k < hi ->
  exists s1 s2,
    for_loop body lo k s = Some s1 /\ body k s1 = Some s2 /\
    for_loop body (k + 1) hi s2 = Some s'.
Proof.
  intros H Hk. rewrite (for_loop_split lo k hi) in H by lia.
  destruct (for_loop body lo k s) as [s1|]; cbn [bind] in H; [|discriminate].
  rewrite for_loop_first in H by lia.
  destruct (body k s1) as [s2|] eqn:E; cbn [bind] in H; [|discriminate].
  exists s1, s2. auto.
Qed.

Lemma for_iter_inv (P : Z -> St -> Prop) n : forall i s s',
  for_iter body n i s = Some s' ->
  P i s ->
  (forall j t t', i <= j < i + Z.of_nat n -> P j t -> body j t = Some t' -> P (j + 1) t') ->
  P (i + Z.of_nat n) s'.
Proof.
  induction n as [|n IH]; intros i s s' H H0 Hstep.
  - cbn in H. injection H as <-. now rewrite Z.add_0_r.
  - cbn [for_iter] in H. destruct (body i s) as [s1|] eqn:E; cbn [bind] in H; [|discriminate].
    replace (i + Z.of_nat (S n)) with (i + 1 + Z.of_nat n) by lia.
    apply (IH (i + 1) s1 s' H).
    + apply (Hstep i s s1); [lia | assumption | assumption].
    + intros j t t' Hj. apply Hstep. lia.
Qed.

Lemma for_loop_inv (P : Z -> St -> Prop) lo hi s s' :
  for_loop body lo hi s = Some s' ->
  lo <= hi ->
  P lo s ->
  (forall j t t', lo <= j < hi -> P j t -> body j t = Some t' -> P (j + 1) t') ->
  P hi s'.
Proof.
  intros H Hle H0 Hstep. unfold for_loop in H.
  replace hi with (lo + Z.of_nat (Z.to_nat (hi - lo))) by lia.
  apply (for_iter_inv P _ lo s s' H H0).
  intros j t t' Hj. apply Hstep. lia.
Qed.

(** A loop whose body is defined on every state completes. *)
Lemma for_iter_total (P : St -> Prop) n : forall i s,
  P s ->
  (forall j t, i <= j < i + Z.of_nat n -> P t -> exists t', body j t = Some t' /\ P t') ->
  exists s', for_iter body n i s = Some s' /\ P s'.
Proof.
  induction n as [|n IH]; intros i s H0 Hstep.
  - exists s. split; [reflexivity | assumption].
  - cbn [for_iter]. destruct (Hstep i s ltac:(lia) H0) as (t' & Et & Pt).
    rewrite Et. cbn [bind]. apply IH; [assumption|].
    intros j t Hj. apply Hstep. lia.
Qed.

Lemma for_loop_total (P : St -> Prop) lo hi s :
  P s ->
  (forall j t, lo <= j < hi -> P t -> exists t', body j t = Some t' /\ P t') ->
  exists s', for_loop body lo hi s = Some s' /\ P s'.
Proof.
  intros H0 Hstep. unfold for_loop. apply for_iter_total; [assumption|].
  intros j t Hj. apply Hstep. lia.
Qed.

End ForLoopFacts.

(** ** Loops over memory that write block after block *)

Section MemLoop.
Variable body : Z -> mem -> option mem.
(** [W j a]: iteration [j] may write address [a]. *)
Variable W : Z -> Z -> Prop.
Variables lo hi : Z.
Hypothesis body_frame : forall j t t',
  lo <= j < hi -> body j t = Some t' -> forall a, ~ W j a -> t' a = t a.

Lemma for_loop_frame_sub l h m m' :
  lo <= l -> h <= hi ->
  for_loop body l h m = Some m' ->
  forall a, (forall j, l <= j < h -> ~ W j a) -> m' a = m a.
Proof.
  intros Hl Hh H a Ha.
  destruct (Z_le_dec l h) as [Hle|Hgt].
  - apply (for_loop_inv body (fun _ t => t a = m a) l h m m' H Hle eq_refl).
    intros j t t' Hj Ht Hb. rewrite <- Ht.
    apply (body_frame j t t'); [lia | assumption | apply Ha; lia].
  - rewrite for_loop_empty in H by lia. now injection H as <-.
Qed.

Lemma for_loop_frame m m' :
  for_loop body lo hi m = Some m' ->
  forall a, (forall j, lo <= j < hi -> ~ W j a) -> m' a = m a.
Proof. apply for_loop_frame_sub; lia. Qed.

(** Around iteration [k]: the memory it starts from differs from the
    initial one only in earlier blocks, and the final memory differs from
    its result only in later blocks. *)
Lemma for_loop_block m m' k :
  for_loop body lo hi m = Some m' -> lo <= k < hi ->
  exists m1 m2,
    body k m1 = Some m2 /\
    (forall a, (forall j, lo <= j < k -> ~ W j a) -> m1 a = m a) /\
    (forall a, (forall j, k < j < hi -> ~ W j a) -> m' a = m2 a).
Proof.
  intros H Hk.
  destruct (for_loop_at body lo hi k m m' H Hk) as (m1 & m2 & H1 & H2 & H3).
  exists m1, m2. split; [assumption|]. split.
  - apply (for_loop_frame_sub lo k m m1); [lia | lia | assumption].
  - intros a Ha. apply (for_loop_frame_sub (k + 1) hi m2 m'); [lia | lia | assumption |].
    intros j Hj. apply Ha. lia.
Qed.
End MemLoop.

Lemma block_inside n B c : 0 <= B -> 0 <= c < n -> 0 <= c * B /\ (c + 1) * B <= n * B.
Proof. intros HB Hc. split; nia. Qed.

Lemma block_before B c c' : 0 <= B -> c < c' -> (c + 1) * B <= c' * B.
Proof. intros HB Hc. nia. Qed.

Section EngineFacts.
Variables dstT srcT : ctype.
Variable f : value -> option value.
Variable sel : Z -> Z.
Variable fillv : value.
Variables scc dcc ncopy : Z.

(** what [f] makes of a loaded source component is a destination value *)
Hypothesis f_sound : forall m a w,
  f (load srcT m a) = Some w -> ty w = dstT /\ wf_value w.
Hypothesis fill_ty : ty fillv = dstT.
Hypothesis fill_wf : wf_value fillv.
Hypothesis ncopy_scc : ncopy <= scc.
Hypothesis ncopy_dcc : ncopy <= dcc.
Hypothesis scc_nonneg : 0 <= scc.
Hypothesis dcc_nonneg : 0 <= dcc.
Hypothesis sel_range : forall ch, 0 <= ch < ncopy -> 0 <= sel ch < scc.

Local Abbreviation ssz := (sizeof srcT).
Local Abbreviation dsz := (sizeof dstT).
Local Abbreviation copyB := (copyBody dstT srcT f sel).
Local Abbreviation fillB := (fillBody dstT fillv).
Local Abbreviation pixel := (pixelAt dstT srcT f sel fillv scc dcc ncopy).
Local Abbreviation pixels := (pixelsAt dstT srcT f sel fillv scc dcc ncopy).

Lemma copyBody_frame in_ out ch m m' :
  copyB in_ out ch m = Some m' ->
  forall a, ~ chanBytes dstT out ch a -> m' a = m a.
Proof.
  unfold copyBody, chanBytes. intros H a Ha.
  destruct (f _) as [v|] eqn:E; cbn [bind] in H; [|discriminate].
  injection H as <-. apply store_other.
  destruct (f_sound _ _ _ E) as [-> _]. lia.
Qed.

Lemma fillBody_frame out ch m m' :
  fillB out ch m = Some m' ->
  forall a, ~ chanBytes dstT out ch a -> m' a = m a.
Proof.
  unfold fillBody, chanBytes. intros H a Ha.
  injection H as <-. apply store_other. rewrite fill_ty. lia.
Qed.

Lemma chanBytes_inside out ch a :
  0 <= ch < dcc -> chanBytes dstT out ch a -> out <= a < out + dcc * dsz.
Proof.
  unfold chanBytes, elem. intros Hch Ha.
  pose proof (sizeof_pos dstT). nia.
Qed.

Lemma pixelAt_frame in_ out m m' :
  pixel in_ out m = Some m' ->
  forall a, ~ (out <= a < out + dcc * dsz) -> m' a = m a.
Proof.
  unfold pixelAt. intros H a Ha.
  destruct (for_loop (copyB in_ out) 0 ncopy m) as [m1|] eqn:E1;
    cbn [bind] in H; [|discriminate].
  transitivity (m1 a).
  - apply (for_loop_frame (fillB out) (chanBytes dstT out) scc dcc) with (m := m1);
      [intros j t t' _; apply fillBody_frame | assumption |].
    intros j Hj Hc. apply Ha. apply (chanBytes_inside out j); [lia | assumption].
  - apply (for_loop_frame (copyB in_ out) (chanBytes dstT out) 0 ncopy) with (m := m);
      [intros j t t' _; apply copyBody_frame | assumption |].
    intros j Hj Hc. apply Ha. apply (chanBytes_inside out j); [lia | assumption].
Qed.

Lemma chanBytes_disjoint out ch ch' a :
  ch <> ch' -> chanBytes dstT out ch a -> chanBytes dstT out ch' a -> False.
Proof.
  unfold chanBytes, elem. intros Hne H1 H2. pose proof (sizeof_pos dstT). nia.
Qed.

Lemma pixelAt_spec in_ out m m' :
  pixel in_ out m = Some m' ->
  (forall x, in_ <= x < in_ + scc * ssz -> out <= x < out + dcc * dsz -> False) ->
  (forall ch, 0 <= ch < ncopy ->
     f (load srcT m (elem srcT in_ (sel ch))) = Some (load dstT m' (elem dstT out ch))) /\
  (forall ch, scc <= ch < dcc -> load dstT m' (elem dstT out ch) = fillv).
Proof.
  unfold pixelAt. intros H Hdis.
  destruct (for_loop (copyB in_ out) 0 ncopy m) as [mc|] eqn:E1;
    cbn [bind] in H; [|discriminate].
  split.
  - intros ch Hch.
    destruct (for_loop_block (copyB in_ out) (chanBytes dstT out) 0 ncopy
                ltac:(intros j t t' _; apply copyBody_frame) m mc ch E1 Hch)
      as (m1 & m2 & Hb & Hpre & Hpost).
    unfold copyBody in Hb.
    destruct (f (load srcT m1 (elem srcT in_ (sel ch)))) as [v|] eqn:Ev;
      cbn [bind] in Hb; [|discriminate].
    injection Hb as <-.
    destruct (f_sound _ _ _ Ev) as [Hty Hwf].
    assert (Hsrc : load srcT m1 (elem srcT in_ (sel ch)) = load srcT m (elem srcT in_ (sel ch))).
    { apply load_ext. intros x Hx. apply Hpre. intros j Hj Hc.
      apply (Hdis x).
      - pose proof (sel_range ch Hch). unfold elem in Hx. pose proof (sizeof_pos srcT). nia.
      - apply (chanBytes_inside out j); [lia | assumption]. }
    rewrite <- Hsrc, Ev. f_equal.
    assert (Hv : load dstT (store m1 (elem dstT out ch) v) (elem dstT out ch) = v).
    { rewrite <- Hty. apply load_store_same. exact Hwf. }
    rewrite <- Hv at 1.
    transitivity (load dstT mc (elem dstT out ch)).
    + symmetry. apply load_ext. intros x Hx. apply Hpost.
      intros j Hj Hc. apply (chanBytes_disjoint out j ch x); [lia | assumption | assumption].
    + symmetry. apply load_ext. intros x Hx.
      apply (for_loop_frame (fillB out) (chanBytes dstT out) scc dcc) with (m := mc);
        [intros j t t' _; apply fillBody_frame | assumption |].
      intros j Hj Hc. apply (chanBytes_disjoint out j ch x); [lia | assumption | assumption].
  - intros ch Hch.
    destruct (for_loop_block (fillB out) (chanBytes dstT out) scc dcc
                ltac:(intros j t t' _; apply fillBody_frame) mc m' ch H Hch)
      as (m1 & m2 & Hb & Hpre & Hpost).
    unfold fillBody in Hb. injection Hb as <-.
    assert (Hv : load dstT (store m1 (elem dstT out ch) fillv) (elem dstT out ch) = fillv).
    { rewrite <- fill_ty. apply load_store_same. exact fill_wf. }
    rewrite <- Hv.
    apply load_ext. intros x Hx. apply Hpost.
    intros j Hj Hc. apply (chanBytes_disjoint out j ch x); [lia | assumption | assumption].
Qed.

Lemma pixelBytes_inside count out c a :
  0 <= c < count -> pixelBytes dstT dcc out c a -> out <= a < out + count * dcc * dsz.
Proof.
  unfold pixelBytes, elem. intros Hc Ha.
  pose proof (sizeof_pos dstT).
  pose proof (block_inside count (dcc * dsz) c ltac:(nia) Hc). lia.
Qed.

Lemma pixelBytes_disjoint out c c' a :
  c <> c' -> pixelBytes dstT dcc out c a -> pixelBytes dstT dcc out c' a -> False.
Proof.
  unfold pixelBytes, elem. intros Hne H1 H2.
  pose proof (sizeof_pos dstT).
  assert (HB : 0 <= dcc * dsz) by nia.
  destruct (Z_lt_dec c c') as [Hlt|Hge].
  - pose proof (block_before (dcc * dsz) c c' HB Hlt). lia.
  - pose proof (block_before (dcc * dsz) c' c HB ltac:(lia)). lia.
Qed.

Lemma pixel_body_frame in_ out j t t' :
  pixel (elem srcT in_ (j * scc)) (elem dstT out (j * dcc)) t = Some t' ->
  forall a, ~ pixelBytes dstT dcc out j a -> t' a = t a.
Proof. intros H a Ha. apply (pixelAt_frame _ _ _ _ H). exact Ha. Qed.

Lemma pixelsAt_frame count in_ out m m' :
  pixels count in_ out m = Some m' ->
  forall a, ~ (out <= a < out + count * dcc * dsz) -> m' a = m a.
Proof.
  unfold pixelsAt. intros H a Ha.
  apply (for_loop_frame _ (pixelBytes dstT dcc out) 0 count
           ltac:(intros j t t' _; apply pixel_body_frame) m m' H).
  intros j Hj Hc. apply Ha. apply (pixelBytes_inside count out j); assumption.
Qed.

Lemma pixelsAt_spec count in_ out m m' c :
  pixels count in_ out m = Some m' ->
  (forall x, in_ <= x < in_ + count * scc * ssz ->
             out <= x < out + count * dcc * dsz -> False) ->
  0 <= c < count ->
  (forall ch, 0 <= ch < ncopy ->
     f (load srcT m (elem srcT in_ (c * scc + sel ch))) =
     Some (load dstT m' (elem dstT out (c * dcc + ch)))) /\
  (forall ch, scc <= ch < dcc ->
     load dstT m' (elem dstT out (c * dcc + ch)) = fillv).
Proof.
  unfold pixelsAt. intros H Hdis Hc.
  destruct (for_loop_block _ (pixelBytes dstT dcc out) 0 count
              ltac:(intros j t t' _; apply pixel_body_frame) m m' c H Hc)
    as (m1 & m2 & Hb & Hpre & Hpost).
  pose proof (sizeof_pos dstT) as Hd. pose proof (sizeof_pos srcT) as Hs.
  pose proof (block_inside count (scc * ssz) c ltac:(nia) Hc) as Hsb.
  pose proof (block_inside count (dcc * dsz) c ltac:(nia) Hc) as Hdb.
  apply pixelAt_spec in Hb.
  2:{ intros x Hx1 Hx2. apply (Hdis x); unfold elem in *; lia. }
  destruct Hb as [Hcopy Hfill].
  assert (Hfinal : forall ch, 0 <= ch < dcc ->
            load dstT m' (elem dstT out (c * dcc + ch)) =
            load dstT m2 (elem dstT (elem dstT out (c * dcc)) ch)).
  { intros ch Hch.
    replace (elem dstT (elem dstT out (c * dcc)) ch) with (elem dstT out (c * dcc + ch))
      by (unfold elem; lia).
    apply load_ext. intros x Hx. apply Hpost. intros j Hj Hp.
    apply (pixelBytes_disjoint out j c x); [lia | assumption |].
    unfold pixelBytes, elem in *. nia. }
  split.
  - intros ch Hch. rewrite Hfinal by lia. rewrite <- Hcopy by assumption.
    f_equal.
    replace (elem srcT (elem srcT in_ (c * scc)) (sel ch))
      with (elem srcT in_ (c * scc + sel ch)) by (unfold elem; lia).
    symmetry. apply load_ext. intros x Hx. apply Hpre. intros j Hj Hp.
    apply (Hdis x).
    + pose proof (sel_range ch Hch). unfold elem in Hx. nia.
    + apply (pixelBytes_inside count out j); [lia | assumption].
  - intros ch Hch. rewrite Hfinal by lia. apply Hfill. assumption.
Qed.

(** When [f] is defined on every loaded component the run of pixels completes. *)
Lemma pixelsAt_total count in_ out m :
  (forall m0 a, exists w, f (load srcT m0 a) = Some w) ->
  exists m', pixels count in_ out m = Some m'.
Proof.
  intros Hf. unfold pixelsAt.
  destruct (for_loop_total
              (fun c m => pixel (elem srcT in_ (c * scc)) (elem dstT out (c * dcc)) m)
              (fun _ => True) 0 count m I) as (m' & Hm' & _).
  - intros j t _ _. unfold pixelAt.
    destruct (for_loop_total (copyB (elem srcT in_ (j * scc)) (elem dstT out (j * dcc)))
                (fun _ => True) 0 ncopy t I) as (t1 & Ht1 & _).
    { intros ch u _ _. unfold copyBody.
      destruct (Hf u (elem srcT (elem srcT in_ (j * scc)) (sel ch))) as (w & Hw).
      rewrite Hw. cbn [bind]. eauto. }
    rewrite Ht1. cbn [bind].
    destruct (for_loop_total (fillB (elem dstT out (j * dcc)))
                (fun _ => True) scc dcc t1 I) as (t2 & Ht2 & _).
    { intros ch u _ _. unfold fillBody. eauto. }
    eauto.
  - eauto.
Qed.

End EngineFacts.

(** ** Two loops run in step *)

Section Lockstep.
Context {S1 S2 : Type}.
Variable R : Z -> S1 -> S2 -> Prop.
Variable b1 : Z -> S1 -> option S1.
Variable b2 : Z -> S2 -> option S2.

Lemma for_iter_rel n : forall i s t,
  (forall j u v, i <= j < i + Z.of_nat n -> R j u v ->
                 opt_rel (R (j + 1)) (b1 j u) (b2 j v)) ->
  R i s t ->
  opt_rel (R (i + Z.of_nat n)) (for_iter b1 n i s) (for_iter b2 n i t).
Proof.
  induction n as [|n IH]; intros i s t Hstep H0.
  - cbn. now rewrite Z.add_0_r.
  - cbn [for_iter]. pose proof (Hstep i s t ltac:(lia) H0) as Hs.
    destruct (b1 i s) as [s1|], (b2 i t) as [t1|]; cbn [bind opt_rel] in *;
      try contradiction; [|exact I].
    replace (i + Z.of_nat (S n)) with (i + 1 + Z.of_nat n) by lia.
    apply IH; [|assumption]. intros j u v Hj. apply Hstep. lia.
Qed.

Lemma for_loop_rel lo hi s t :
  (forall j u v, lo <= j < hi -> R j u v -> opt_rel (R (j + 1)) (b1 j u) (b2 j v)) ->
  R lo s t ->
  opt_rel (R (lo + Z.of_nat (Z.to_nat (hi - lo)))) (for_loop b1 lo hi s) (for_loop b2 lo hi t).
Proof.
  intros Hstep H0. unfold for_loop. apply for_iter_rel; [|assumption].
  intros j u v Hj. apply Hstep. lia.
Qed.
End Lockstep.

Lemma opt_rel_impl {A B : Type} (R R' : A -> B -> Prop) x y :
  (forall a b, R a b -> R' a b) -> opt_rel R x y -> opt_rel R' x y.
Proof. intros H. destruct x, y; cbn; auto. Qed.

Lemma opt_rel_eq {A : Type} (x y : option A) : opt_rel eq x y -> x = y.
Proof. destruct x, y; cbn; intros H; try contradiction; congruence. Qed.

Lemma for_loop_ext {St : Type} (b1 b2 : Z -> St -> option St) lo hi s :
  (forall j u, lo <= j < hi -> b1 j u = b2 j u) ->
  for_loop b1 lo hi s = for_loop b2 lo hi s.
Proof.
  intros H. apply opt_rel_eq.
  apply (opt_rel_impl (fun a b => a = b) eq); [auto|].
  apply (for_loop_rel (fun _ a b => a = b) b1 b2 lo hi s s); [|reflexivity].
  intros j u v Hj ->. rewrite (H j v Hj). destruct (b2 j v); cbn; auto.
Qed.

(** The third component of a threaded state is the memory. *)
Lemma thread_proj (x : option (Z * Z * mem)) (y : option mem) :
  opt_rel (fun s m2 => snd s = m2) x y ->
  ('(_, _, m) <- x ;; Some m) = y.
Proof.
  destruct x as [[[p q] m]|], y as [m2|]; cbn; intros H; try contradiction; congruence.
Qed.

(** The pointer-advancing loop over pixels is [pixelsAt]. *)
Lemma pixels_threaded dstT srcT f sel fillv scc dcc ncopy count in0 out0 m :
  opt_rel (fun (s : Z * Z * mem) m2 => snd s = m2)
    (for_loop (fun (column : Z) '(in_, out, m) =>
        m <- for_loop (copyBody dstT srcT f sel in_ out) 0 ncopy m ;;
        m <- for_loop (fillBody dstT fillv out) scc dcc m ;;
        Some (elem srcT in_ scc, elem dstT out dcc, m))
      0 count (in0, out0, m))
    (pixelsAt dstT srcT f sel fillv scc dcc ncopy count in0 out0 m).
Proof.
  unfold pixelsAt.
  eapply opt_rel_impl;
    [| apply (for_loop_rel
         (fun j (s : Z * Z * mem) m2 =>
            s = (elem srcT in0 (j * scc), elem dstT out0 (j * dcc), m2)))].
  - intros s m2 ->. reflexivity.
  - intros j [[p q] u] v Hj E. injection E as -> -> ->.
    unfold pixelAt.
    destruct (for_loop (copyBody dstT srcT f sel (elem srcT in0 (j * scc))
                          (elem dstT out0 (j * dcc))) 0 ncopy v) as [m1|];
      cbn [bind opt_rel]; [|exact I].
    destruct (for_loop (fillBody dstT fillv (elem dstT out0 (j * dcc))) scc dcc m1) as [m2|];
      cbn [bind opt_rel]; [|exact I].
    unfold elem. f_equal. f_equal; lia.
  - unfold elem. f_equal. f_equal; lia.
Qed.

Lemma reshapeImage_closed_form dstT srcT dest src sbpr dbpr dcc height swz m :
  reshapeImage dstT srcT dest src sbpr dbpr dcc height swz m =
  imageAt dstT srcT dest src sbpr dbpr dcc height swz m.
Proof.
  unfold reshapeImage, imageAt. cbv zeta.
  apply thread_proj.
  eapply opt_rel_impl;
    [| apply (for_loop_rel
         (fun j (s : Z * Z * mem) m2 => s = (src + j * sbpr, dest + j * dbpr, m2)))].
  - intros s m2 ->. reflexivity.
  - intros j [[p q] u] v Hj E. injection E as -> -> ->.
    pose proof (pixels_threaded dstT srcT (rescale dstT srcT) (swizzleIndex swz)
                  (getMaxValue dstT) 4 dcc (Z.min 4 dcc) (imageWidth dstT sbpr)
                  (src + j * sbpr) (dest + j * dbpr) v) as Hp.
    match type of Hp with
    | opt_rel _ ?x ?y =>
        change (opt_rel
                  (fun (s : Z * Z * mem) m2 =>
                     s = (src + (j + 1) * sbpr, dest + (j + 1) * dbpr, m2))
                  ('(_, _, m) <- x ;;
                   Some (src + j * sbpr + sbpr, dest + j * dbpr + dbpr, m)) y);
        destruct x as [[[p q] m1]|], y as [m2|]
    end; cbn in Hp |- *; try contradiction; [|exact I].
    subst. f_equal. f_equal; lia.
  - f_equal. f_equal; lia.
Qed.

(** ** The image kernel *)

Lemma getMaxValue_ty t : ty (getMaxValue t) = t.
Proof. destruct t; reflexivity. Qed.

Lemma getMaxValue_wf t : wf_value (getMaxValue t).
Proof. destruct t; vm_compute; reflexivity. Qed.

Lemma swizzleIndex_range swz ch : 0 <= ch < 4 -> 0 <= swizzleIndex swz ch < 4.
Proof.
  intros H. assert (E : ch = 0 \/ ch = 1 \/ ch = 2 \/ ch = 3) by lia.
  destruct E as [-> | [-> | [-> | ->]]]; destruct swz; vm_compute;
    (split; [discriminate | reflexivity]).
Qed.

Section ImageFacts.
Variables dstT srcT : ctype.
Variables dest src sbpr dbpr dcc height : Z.
Variable swz : bool.
Hypothesis dcc_nonneg : 0 <= dcc.

Local Abbreviation width := (imageWidth dstT sbpr).
Local Abbreviation row_run :=
  (pixelsAt dstT srcT (rescale dstT srcT) (swizzleIndex swz) (getMaxValue dstT)
     4 dcc (Z.min 4 dcc) width).
Local Abbreviation dstRow := (dstRowBytes dstT dest dbpr width dcc).
Local Abbreviation srcRow := (srcRowBytes srcT src sbpr width).

Lemma row_run_frame j t t' :
  row_run (src + j * sbpr) (dest + j * dbpr) t = Some t' ->
  forall a, ~ dstRow j a -> t' a = t a.
Proof.
  intros H a Ha.
  apply (pixelsAt_frame dstT srcT (rescale dstT srcT) (swizzleIndex swz)
           (getMaxValue dstT) 4 dcc (Z.min 4 dcc)
           ltac:(intros ? ? ?; apply rescale_sound) (getMaxValue_ty dstT)
           ltac:(lia) ltac:(lia) dcc_nonneg _ _ _ _ _ H).
  exact Ha.
Qed.

Lemma imageAt_frame m m' :
  imageAt dstT srcT dest src sbpr dbpr dcc height swz m = Some m' ->
  forall a, (forall row, 0 <= row < height -> ~ dstRow row a) -> m' a = m a.
Proof.
  unfold imageAt. intros H.
  apply (for_loop_frame _ dstRow 0 height
           ltac:(intros j t t' _; apply row_run_frame) m m' H).
Qed.

Hypothesis stride_packed : width * dcc * sizeof dstT <= dbpr.
Hypothesis no_alias : forall r r' a,
  0 <= r < height -> 0 <= r' < height -> srcRow r a -> dstRow r' a -> False.

Lemma imageAt_spec m m' row col ch :
  imageAt dstT srcT dest src sbpr dbpr dcc height swz m = Some m' ->
  0 <= row < height -> 0 <= col < width -> 0 <= ch < Z.min 4 dcc ->
  rescale dstT srcT (load srcT m (channelAddr srcT src sbpr 4 row col (swizzleIndex swz ch))) =
  Some (load dstT m' (channelAddr dstT dest dbpr dcc row col ch)).
Proof.
  unfold imageAt, channelAddr. intros H Hrow Hcol Hch.
  destruct (for_loop_block _ dstRow 0 height
              ltac:(intros j t t' _; apply row_run_frame) m m' row H Hrow)
    as (m1 & m2 & Hb & Hpre & Hpost).
  pose proof (sizeof_pos dstT) as Hd. pose proof (sizeof_pos srcT) as Hs.
  pose proof (swizzleIndex_range swz ch ltac:(lia)) as Hsel.
  destruct (pixelsAt_spec dstT srcT (rescale dstT srcT) (swizzleIndex swz)
              (getMaxValue dstT) 4 dcc (Z.min 4 dcc)
              ltac:(intros ? ? ?; apply rescale_sound) (getMaxValue_ty dstT)
              (getMaxValue_wf dstT) ltac:(lia) ltac:(lia) ltac:(lia) dcc_nonneg
              ltac:(intros ? ?; apply swizzleIndex_range; lia)
              _ _ _ _ _ col Hb) as [Hcopy _].
  - intros x Hx1 Hx2. apply (no_alias row row x Hrow Hrow Hx1 Hx2).
  - assumption.
  - assert (Hsrc : load srcT m1 (elem srcT (src + row * sbpr) (col * 4 + swizzleIndex swz ch)) =
                   load srcT m (elem srcT (src + row * sbpr) (col * 4 + swizzleIndex swz ch))).
    { apply load_ext. intros x Hx. apply Hpre. intros j Hj Hw.
      apply (no_alias row j x Hrow ltac:(lia)); [|assumption].
      unfold srcRowBytes. unfold elem in Hx. nia. }
    assert (Hdst : load dstT m' (elem dstT (dest + row * dbpr) (col * dcc + ch)) =
                   load dstT m2 (elem dstT (dest + row * dbpr) (col * dcc + ch))).
    { apply load_ext. intros x Hx. apply Hpost. intros j Hj Hw.
      unfold dstRowBytes in Hw. unfold elem in Hx.
      assert (A0 : (col + 1) * dcc <= width * dcc) by nia.
      assert (A1 : (col * dcc + ch + 1) * sizeof dstT <= width * dcc * sizeof dstT) by nia.
      assert (A2 : 0 <= dbpr) by nia.
      pose proof (block_before dbpr row j A2 ltac:(lia)). lia. }
    rewrite <- Hsrc, Hdst. apply Hcopy. assumption.
Qed.
End ImageFacts.

(** The image kernel completes whenever the rescale is defined on every
    component it can load; between 8-bit buffers it always is. *)
Lemma reshapeImage_completes dstT srcT dest src sbpr dbpr dcc height swz m :
  (forall m0 a, exists w, rescale dstT srcT (load srcT m0 a) = Some w) ->
  exists m', reshapeImage dstT srcT dest src sbpr dbpr dcc height swz m = Some m'.
Proof.
  intros Hf. rewrite reshapeImage_closed_form. unfold imageAt.
  destruct (for_loop_total
              (fun row m1 =>
                 pixelsAt dstT srcT (rescale dstT srcT) (swizzleIndex swz)
                   (getMaxValue dstT) 4 dcc (Z.min 4 dcc) (imageWidth dstT sbpr)
                   (src + row * sbpr) (dest + row * dbpr) m1)
              (fun _ => True) 0 height m I) as (m' & Hm' & _).
  - intros j t _ _.
    destruct (pixelsAt_total dstT srcT (rescale dstT srcT) (swizzleIndex swz)
                (getMaxValue dstT) 4 dcc (Z.min 4 dcc) (imageWidth dstT sbpr)
                (src + j * sbpr) (dest + j * dbpr) t Hf) as (t' & Ht').
    exists t'. split; [exact Ht' | exact I].
  - exists m'. exact Hm'.
Qed.

Lemma reshapeImage_uint8_completes dest src sbpr dbpr dcc height swz m :
  exists m', reshapeImage uint8_t uint8_t dest src sbpr dbpr dcc height swz m = Some m'.
Proof.
  apply reshapeImage_completes. intros m0 a.
  exists (load uint8_t m0 a). apply rescale_uint8_id; [apply load_ty | apply load_wf].
Qed.

(** ** The image kernel: frame and swizzle *)



(** The channel mapping on the pixels the run covers: with the swizzle flag
    set, and source and destination not overlapping, destination channel 0 of
    each of the [imageWidth] pixels of a row is the rescaled source channel 2,
    destination channel 2 the rescaled source channel 0, and channels 1 and 3
    are the rescaled source channels 1 and 3, the values they also have after
    a run with the flag cleared. Only the source index is permuted. *)
Lemma reshapeImage_swizzle dstT srcT dest src sbpr dbpr dcc height m m' :
  0 <= dcc ->
  imageWidth dstT sbpr * dcc * sizeof dstT <= dbpr ->
  (forall r r' a, 0 <= r < height -> 0 <= r' < height ->
     srcRowBytes srcT src sbpr (imageWidth dstT sbpr) r a ->
     dstRowBytes dstT dest dbpr (imageWidth dstT sbpr) dcc r' a -> False) ->
  reshapeImage dstT srcT dest src sbpr dbpr dcc height true m = Some m' ->
  forall row col, 0 <= row < height -> 0 <= col < imageWidth dstT sbpr ->
    (0 < dcc ->
       rescale dstT srcT (load srcT m (channelAddr srcT src sbpr 4 row col 2)) =
       Some (load dstT m' (channelAddr dstT dest dbpr dcc row col 0))) /\
    (2 < dcc ->
       rescale dstT srcT (load srcT m (channelAddr srcT src sbpr 4 row col 0)) =
       Some (load dstT m' (channelAddr dstT dest dbpr dcc row col 2))) /\
    (1 < dcc ->
       rescale dstT srcT (load srcT m (channelAddr srcT src sbpr 4 row col 1)) =
       Some (load dstT m' (channelAddr dstT dest dbpr dcc row col 1))) /\
    (3 < dcc ->
       rescale dstT srcT (load srcT m (channelAddr srcT src sbpr 4 row col 3)) =
       Some (load dstT m' (channelAddr dstT dest dbpr dcc row col 3))) /\
    (forall m0,
       reshapeImage dstT srcT dest src sbpr dbpr dcc height false m = Some m0 ->
       (1 < dcc -> load dstT m0 (channelAddr dstT dest dbpr dcc row col 1) =
                   load dstT m' (channelAddr dstT dest dbpr dcc row col 1)) /\
       (3 < dcc -> load dstT m0 (channelAddr dstT dest dbpr dcc row col 3) =
                   load dstT m' (channelAddr dstT dest dbpr dcc row col 3))).
Proof.
  intros Hdcc Hstride Halias H row col Hrow Hcol.
  rewrite reshapeImage_closed_form in H.
  pose proof (fun ch => imageAt_spec dstT srcT dest src sbpr dbpr dcc height true
                          Hdcc Hstride Halias m m' row col ch H Hrow Hcol) as S.
  repeat split.
  - intros Hc. exact (S 0 ltac:(lia)).
  - intros Hc. exact (S 2 ltac:(lia)).
  - intros Hc. exact (S 1 ltac:(lia)).
  - intros Hc. exact (S 3 ltac:(lia)).
  - intros Hc. rewrite reshapeImage_closed_form in H0.
    pose proof (imageAt_spec dstT srcT dest src sbpr dbpr dcc height false
                  Hdcc Hstride Halias m m0 row col 1 H0 Hrow Hcol ltac:(lia)) as S0.
    pose proof (S 1 ltac:(lia)) as S1.
    change (swizzleIndex false 1) with 1 in S0. change (swizzleIndex true 1) with 1 in S1.
    congruence.
  - intros Hc. rewrite reshapeImage_closed_form in H0.
    pose proof (imageAt_spec dstT srcT dest src sbpr dbpr dcc height false
                  Hdcc Hstride Halias m m0 row col 3 H0 Hrow Hcol ltac:(lia)) as S0.
    pose proof (S 3 ltac:(lia)) as S1.
    change (swizzleIndex false 3) with 3 in S0. change (swizzleIndex true 3) with 3 in S1.
    congruence.
Qed.

Lemma reshapeImage_swizzle_witness :
  match reshapeImage uint8_t uint8_t 100 0 8 8 4 1 true image_2x1 with
  | Some m' =>
      rescale uint8_t uint8_t (load uint8_t image_2x1 (channelAddr uint8_t 0 8 4 0 1 2)) =
      Some (load uint8_t m' (channelAddr uint8_t 100 8 4 0 1 0))
  | None => False
  end.
Proof.
  destruct (reshapeImage uint8_t uint8_t 100 0 8 8 4 1 true image_2x1) as [m'|] eqn:E.
  - refine (proj1 (reshapeImage_swizzle uint8_t uint8_t 100 0 8 8 4 1 image_2x1 m'
                     ltac:(lia) ltac:(vm_compute; discriminate) _ E 0 1
                     ltac:(lia) ltac:(vm_compute; split; [discriminate | reflexivity]))
                  ltac:(lia)).
    intros r r' a Hr Hr'. unfold srcRowBytes, dstRowBytes.
    change (imageWidth uint8_t 8) with 2. change (sizeof uint8_t) with 1. lia.
  - vm_compute in E. discriminate E.
Defined.

(** ** Pixels of the image and pixels of the run

    The image has [srcBytesPerRow / (sizeof(srcComponentType) * 4)] pixels in
    a row; the kernel runs over [imageWidth] of them. A pixel the kernel
    reaches is converted, and keeps its value to the end of the run when it
    lies within the stride of its row: later rows write behind it. *)

Section ImagePixel.
Variables dstT srcT : ctype.
Variables dest src sbpr dbpr dcc height : Z.
Variable swz : bool.
Hypothesis dcc_nonneg : 0 <= dcc.

Local Abbreviation width := (imageWidth dstT sbpr).
Local Abbreviation dstRow := (dstRowBytes dstT dest dbpr width dcc).
Local Abbreviation srcRow := (srcRowBytes srcT src sbpr width).

Hypothesis no_alias : forall r r' a,
  0 <= r < height -> 0 <= r' < height -> srcRow r a -> dstRow r' a -> False.

Lemma imageAt_pixel m m' row col ch :
  imageAt dstT srcT dest src sbpr dbpr dcc height swz m = Some m' ->
  0 <= row < height -> 0 <= col < width ->
  (col + 1) * dcc * sizeof dstT <= dbpr ->
  0 <= ch < Z.min 4 dcc ->
  rescale dstT srcT (load srcT m (channelAddr srcT src sbpr 4 row col (swizzleIndex swz ch))) =
  Some (load dstT m' (channelAddr dstT dest dbpr dcc row col ch)).
Proof.
  unfold imageAt, channelAddr. intros H Hrow Hcol Hfit Hch.
  destruct (for_loop_block _ dstRow 0 height
              ltac:(intros j t t' _;
                    apply (row_run_frame dstT srcT dest src sbpr dbpr dcc swz dcc_nonneg))
              m m' row H Hrow)
    as (m1 & m2 & Hb & Hpre & Hpost).
  pose proof (sizeof_pos dstT) as Hd. pose proof (sizeof_pos srcT) as Hs.
  pose proof (swizzleIndex_range swz ch ltac:(lia)) as Hsel.
  destruct (pixelsAt_spec dstT srcT (rescale dstT srcT) (swizzleIndex swz)
              (getMaxValue dstT) 4 dcc (Z.min 4 dcc)
              ltac:(intros ? ? ?; apply rescale_sound) (getMaxValue_ty dstT)
              (getMaxValue_wf dstT) ltac:(lia) ltac:(lia) ltac:(lia) dcc_nonneg
              ltac:(intros ? ?; apply swizzleIndex_range; lia)
              _ _ _ _ _ col Hb) as [Hcopy _].
  - intros x Hx1 Hx2. apply (no_alias row row x Hrow Hrow Hx1 Hx2).
  - assumption.
  - assert (Hsrc : load srcT m1 (elem srcT (src + row * sbpr) (col * 4 + swizzleIndex swz ch)) =
                   load srcT m (elem srcT (src + row * sbpr) (col * 4 + swizzleIndex swz ch))).
    { apply load_ext. intros x Hx. apply Hpre. intros j Hj Hw.
      apply (no_alias row j x Hrow ltac:(lia)); [|assumption].
      unfold srcRowBytes. unfold elem in Hx. nia. }
    assert (Hdst : load dstT m' (elem dstT (dest + row * dbpr) (col * dcc + ch)) =
                   load dstT m2 (elem dstT (dest + row * dbpr) (col * dcc + ch))).
    { apply load_ext. intros x Hx. apply Hpost. intros j Hj Hw.
      unfold dstRowBytes in Hw. unfold elem in Hx.
      assert (A1 : (col * dcc + ch + 1) * sizeof dstT <= (col + 1) * dcc * sizeof dstT) by nia.
      assert (A2 : 0 <= dbpr) by nia.
      pose proof (block_before dbpr row j A2 ltac:(lia)). lia. }
    rewrite <- Hsrc, Hdst. apply Hcopy. assumption.
Qed.
End ImagePixel.

(** For a destination component no wider than the source component the run
    covers every pixel of the image. *)
Lemma imageWidth_covers dstT srcT sbpr :
  0 <= sbpr -> sizeof dstT <= sizeof srcT ->
  sbpr / (sizeof srcT * 4) <= imageWidth dstT sbpr.
Proof.
  intros Hs Hle. unfold imageWidth.
  pose proof (sizeof_pos dstT) as Hd. pose proof (sizeof_pos srcT) as Hs'.
  rewrite Z.div_div by lia.
  apply Z.div_le_compat_l; lia.
Qed.

(** Every pixel of the image, for either setting of the swizzle flag, when
    the destination component is no wider than the source component. *)
Lemma reshapeImage_image_pixel dstT srcT dest src sbpr dbpr dcc height swz m m' :
  0 <= dcc -> 0 <= sbpr ->
  sizeof dstT <= sizeof srcT ->
  sbpr / (sizeof srcT * 4) * dcc * sizeof dstT <= dbpr ->
  (forall r r' a, 0 <= r < height -> 0 <= r' < height ->
     srcRowBytes srcT src sbpr (imageWidth dstT sbpr) r a ->
     dstRowBytes dstT dest dbpr (imageWidth dstT sbpr) dcc r' a -> False) ->
  reshapeImage dstT srcT dest src sbpr dbpr dcc height swz m = Some m' ->
  forall row col ch,
    0 <= row < height -> 0 <= col < sbpr / (sizeof srcT * 4) -> 0 <= ch < Z.min 4 dcc ->
    rescale dstT srcT
      (load srcT m (channelAddr srcT src sbpr 4 row col (swizzleIndex swz ch))) =
    Some (load dstT m' (channelAddr dstT dest dbpr dcc row col ch)).
Proof.
  intros Hdcc Hsbpr Hsz Hstride Halias H row col ch Hrow Hcol Hch.
  rewrite reshapeImage_closed_form in H.
  pose proof (imageWidth_covers dstT srcT sbpr Hsbpr Hsz) as Hw.
  pose proof (sizeof_pos dstT) as Hd.
  assert (Hfit : (col + 1) * dcc * sizeof dstT <= dbpr).
  { assert ((col + 1) * (dcc * sizeof dstT)
            <= sbpr / (sizeof srcT * 4) * (dcc * sizeof dstT))
      by (apply Z.mul_le_mono_nonneg_r; nia).
    lia. }
  exact (imageAt_pixel dstT srcT dest src sbpr dbpr dcc height swz
           Hdcc Halias m m' row col ch H Hrow ltac:(lia) Hfit Hch).
Qed.

(** A run over no pixel returns the memory it was given. *)
Lemma reshapeImage_no_columns dstT srcT dest src sbpr dbpr dcc height swz m :
  imageWidth dstT sbpr <= 0 ->
  reshapeImage dstT srcT dest src sbpr dbpr dcc height swz m = Some m.
Proof.
  intros Hw. rewrite reshapeImage_closed_form. unfold imageAt.
  destruct (for_loop_total
              (fun row m1 =>
                 pixelsAt dstT srcT (rescale dstT srcT) (swizzleIndex swz)
                   (getMaxValue dstT) 4 dcc (Z.min 4 dcc) (imageWidth dstT sbpr)
                   (src + row * sbpr) (dest + row * dbpr) m1)
              (fun t => t = m) 0 height m eq_refl) as (m' & Hm' & ->).
  - intros j t _ ->. exists m. split; [|reflexivity].
    unfold pixelsAt. apply for_loop_empty. exact Hw.
  - exact Hm'.
Qed.

(** ** The 8-bit kernel against the copy-only kernel *)

Lemma bind_congr {A B : Type} (x y : option A) (k : A -> option B) :
  x = y -> bind x k = bind y k.
Proof. now intros ->. Qed.

(** C10: on 8-bit components the rescaling kernel and the copy-only kernel of
    the older header compute the same memory from the same arguments. *)
Theorem reshapeImage_uint8_agrees_with_V1 dest src sbpr dbpr dcc height swz m :
  reshapeImage uint8_t uint8_t dest src sbpr dbpr dcc height swz m =
  V1.reshapeImage uint8_t dest src sbpr dbpr dcc height swz m.
Proof.
  unfold reshapeImage, V1.reshapeImage. cbv zeta.
  apply bind_congr. apply for_loop_ext. intros row [[p q] u] _.
  apply bind_congr. apply for_loop_ext. intros col [[pi po] v] _.
  apply bind_congr. apply for_loop_ext. intros ch w _.
  rewrite rescale_uint8_id; [reflexivity | apply load_ty | apply load_wf].
Qed.

(** ** The generic reshape *)

Lemma reshape_closed_form t scc dcc dest src n m :
  reshape t scc dcc dest src n m =
  (count <- size_div (n / sizeof t) scc ;;
   pixelsAt t t Some (fun ch => ch) (getMaxValue t) scc dcc
     (to_size_t (to_int (Z.min scc dcc))) count src dest m).
Proof.
  unfold reshape. cbv zeta.
  destruct (size_div (n / sizeof t) scc) as [count|]; cbn [bind]; [|reflexivity].
  apply thread_proj.
  exact (pixels_threaded t t Some (fun ch => ch) (getMaxValue t) scc dcc
           (to_size_t (to_int (Z.min scc dcc))) count src dest m).
Qed.

Lemma int_size_t_small z : 0 <= z < 2 ^ 31 -> to_size_t (to_int z) = z.
Proof.
  intros H. unfold to_size_t, to_int.
  rewrite wrap_id by (apply in_range_spec; lia).
  apply Z.mod_small. lia.
Qed.

(** C6: for channel counts that fit an [int] and buffers that do not overlap,
    the generic reshape processes [floor(numSrcBytes / (componentSize *
    srcChannelCount))] pixels; pixel [p] is read at component [p *
    srcChannelCount] of the source and written at component [p *
    dstChannelCount] of the destination; its first [min(srcChannelCount,
    dstChannelCount)] channels are copied unchanged, its channels from
    [srcChannelCount] on hold the maximum value of the type (channel 3 when
    3 channels are expanded to 4), and nothing else is written. *)
Theorem reshape_spec t scc dcc dest src n m :
  0 < scc -> 0 <= dcc -> Z.min scc dcc < 2 ^ 31 -> 0 <= n ->
  (forall a, src <= a < src + pixelCount t scc n * scc * sizeof t ->
             dest <= a < dest + pixelCount t scc n * dcc * sizeof t -> False) ->
  size_div (n / sizeof t) scc = Some (pixelCount t scc n) /\
  exists m',
    reshape t scc dcc dest src n m = Some m' /\
    (forall p ch, 0 <= p < pixelCount t scc n -> 0 <= ch < Z.min scc dcc ->
       load t m' (elem t dest (p * dcc + ch)) = load t m (elem t src (p * scc + ch))) /\
    (forall p ch, 0 <= p < pixelCount t scc n -> scc <= ch < dcc ->
       load t m' (elem t dest (p * dcc + ch)) = getMaxValue t) /\
    (scc = 3 -> dcc = 4 -> forall p, 0 <= p < pixelCount t scc n ->
       load t m' (elem t dest (p * 4 + 3)) = getMaxValue t) /\
    (forall a, ~ (dest <= a < dest + pixelCount t scc n * dcc * sizeof t) -> m' a = m a).
Proof.
  intros Hscc Hdcc Hmin Hn Hdis.
  pose proof (sizeof_pos t) as Hsz.
  assert (Ecount : size_div (n / sizeof t) scc = Some (pixelCount t scc n)).
  { unfold size_div, pixelCount. destruct (scc =? 0) eqn:E0; [apply Z.eqb_eq in E0; lia|].
    rewrite Z.div_div by lia. reflexivity. }
  split; [exact Ecount|].
  assert (Encopy : to_size_t (to_int (Z.min scc dcc)) = Z.min scc dcc)
    by (apply int_size_t_small; lia).
  assert (Hsound : forall (m0 : mem) a w, Some (load t m0 a) = Some w -> ty w = t /\ wf_value w).
  { intros m0 a w E. injection E as <-. split; [apply load_ty | apply load_wf]. }
  destruct (pixelsAt_total t t Some (fun ch => ch) (getMaxValue t) scc dcc
              (Z.min scc dcc) (pixelCount t scc n) src dest m
              ltac:(intros m0 a; eexists; reflexivity)) as (m' & Hm').
  assert (Hspec := fun p => pixelsAt_spec t t Some (fun ch => ch) (getMaxValue t)
                       scc dcc (Z.min scc dcc) Hsound (getMaxValue_ty t)
                       (getMaxValue_wf t) ltac:(lia) ltac:(lia) ltac:(lia) Hdcc
                       ltac:(intros ch Hch; lia)
                       (pixelCount t scc n) src dest m m' p Hm' Hdis).
  assert (Hfill : forall p ch, 0 <= p < pixelCount t scc n -> scc <= ch < dcc ->
            load t m' (elem t dest (p * dcc + ch)) = getMaxValue t).
  { intros p ch Hp Hch. destruct (Hspec p Hp) as [_ H2]. apply H2. assumption. }
  exists m'. split; [|split; [|split; [|split]]].
  - rewrite reshape_closed_form, Ecount. cbn [bind]. rewrite Encopy. exact Hm'.
  - intros p ch Hp Hch. destruct (Hspec p Hp) as [H1 _].
    specialize (H1 ch Hch). cbv beta in H1. congruence.
  - exact Hfill.
  - intros -> -> p Hp. apply Hfill; [assumption | lia].
  - apply (pixelsAt_frame t t Some (fun ch => ch) (getMaxValue t) scc dcc
             (Z.min scc dcc) Hsound (getMaxValue_ty t) ltac:(lia) ltac:(lia) Hdcc
             _ _ _ _ _ Hm').
Qed.

Lemma reshape_spec_witness :
  exists m',
    reshape uint8_t 3 4 100 0 6 image_2x1 = Some m' /\
    load uint8_t m' (elem uint8_t 100 (1 * 4 + 3)) = getMaxValue uint8_t /\
    load uint8_t m' (elem uint8_t 100 (1 * 4 + 0)) =
    load uint8_t image_2x1 (elem uint8_t 0 (1 * 3 + 0)).
Proof.
  destruct (reshape_spec uint8_t 3 4 100 0 6 image_2x1
              ltac:(lia) ltac:(lia) ltac:(vm_compute; reflexivity) ltac:(lia))
    as (_ & m' & Hrun & Hcopy & Hfill & _ & _).
  - intros a. change (pixelCount uint8_t 3 6) with 2. change (sizeof uint8_t) with 1. lia.
  - exists m'. split; [exact Hrun|]. split.
    + apply Hfill; [change (pixelCount uint8_t 3 6) with 2; lia | lia].
    + apply Hcopy; [change (pixelCount uint8_t 3 6) with 2; lia | lia].
Defined.

(** ** The maximum-value table *)

(** C7: the maximum value is 255 for [uint8_t], 1.0 for [float], 0x7fffffff
    for [int32_t], 0xffffffff for [uint32_t] and 0x3c00 for [uint16_t], each a
    value of that type; the older header's [getDefaultAlpha] is the same table. *)
Theorem getMaxValue_table :
  getMaxValue uint8_t = mkV uint8_t 255 /\
  getMaxValue float = mkV float (F32.to_bits (SFone 24 128)) /\
  F32.of_bits (rep (getMaxValue float)) = S754_finite false (2 ^ 23) (-23) /\
  getMaxValue int32_t = mkV int32_t 0x7fffffff /\
  getMaxValue uint32_t = mkV uint32_t 0xffffffff /\
  getMaxValue uint16_t = mkV uint16_t 0x3c00 /\
  (forall t, ty (getMaxValue t) = t /\ wf_value (getMaxValue t)) /\
  (forall t, V1.getDefaultAlpha t = getMaxValue t).
Proof.
  do 6 (split; [reflexivity|]). split.
  - intros t. split; [apply getMaxValue_ty | apply getMaxValue_wf].
  - intros t. destruct t; reflexivity.
Qed.

(** ** The dispatcher *)

Lemma reshapeImage_no_rows dstT srcT dest src sbpr dbpr dcc swz m :
  reshapeImage dstT srcT dest src sbpr dbpr dcc 0 swz m = Some m.
Proof. reflexivity. Qed.

Section DispatcherFacts.
Variable computeDataSize : PixelDataFormat -> PixelDataType -> Z -> Z -> Z -> Z.

(** C4: when the destination format is neither RGB nor RGBA, or the
    destination or the source type is not one of UBYTE, FLOAT, INT, UINT,
    the dispatcher returns false and the memory is the one it was given. *)
Theorem dispatch_rejects dst srcType srcBytes sbpr width height swz m :
  supported_format (format dst) = false \/
  supported_type (type dst) = false \/
  supported_type srcType = false ->
  reshapeImageDispatch computeDataSize dst srcType srcBytes sbpr width height swz m =
  Some (false, m).
Proof.
  destruct dst as [b f t s al]. cbn [format type]. unfold reshapeImageDispatch.
  cbn [format type buffer stride alignment].
  intros [H | [H | H]].
  - destruct f; try discriminate H; reflexivity.
  - destruct f; [| |reflexivity]; destruct t; try discriminate H; reflexivity.
  - destruct f; [| |reflexivity]; destruct t; try reflexivity;
      destruct srcType; try discriminate H; reflexivity.
Qed.

(** C8: with a supported destination format and supported types, a call
    with [height = 0] returns true and leaves the memory as it was. *)
Theorem dispatch_height_zero dst srcType srcBytes sbpr width swz m :
  supported_format (format dst) = true ->
  supported_type (type dst) = true ->
  supported_type srcType = true ->
  reshapeImageDispatch computeDataSize dst srcType srcBytes sbpr width 0 swz m =
  Some (true, m).
Proof.
  destruct dst as [b f t s al]. cbn [format type]. unfold reshapeImageDispatch.
  cbn [format type buffer stride alignment].
  change (to_size_t 0) with 0.
  intros Hf Ht Hs.
  destruct f; try discriminate Hf;
    destruct t; try discriminate Ht;
    destruct srcType; try discriminate Hs;
    cbv iota; rewrite reshapeImage_no_rows; reflexivity.
Qed.
End DispatcherFacts.

Lemma dispatch_rejects_witness :
  reshapeImageDispatch computeDataSize_spec
    (mkDescriptor 100 (OtherFormat 0) UBYTE 0 1) UBYTE 0 8 2 1 false image_2x1 =
  Some (false, image_2x1).
Proof.
  apply (dispatch_rejects computeDataSize_spec
           (mkDescriptor 100 (OtherFormat 0) UBYTE 0 1) UBYTE 0 8 2 1 false image_2x1).
  left. reflexivity.
Defined.

Lemma dispatch_height_zero_witness :
  reshapeImageDispatch computeDataSize_spec
    (mkDescriptor 100 RGB FLOAT 0 1) UBYTE 0 8 2 0 true image_2x1 =
  Some (true, image_2x1).
Proof.
  apply (dispatch_height_zero computeDataSize_spec
           (mkDescriptor 100 RGB FLOAT 0 1) UBYTE 0 8 2 true image_2x1);
    reflexivity.
Defined.

(** ** The scenarios of the specification, run on the kernels *)

(** Channel truncation: the 8-bit pixels (10, 20, 30, 255), (40, 50, 60, 255)
    to three 8-bit channels. *)
Example scenario_truncation :
  run_dump (reshapeImage uint8_t uint8_t 100 0 8 6 3 1 false image_2x1) 100 8 =
  Some [10; 20; 30; 40; 50; 60; 170; 170].
Proof. vm_compute. reflexivity. Qed.

(** Swizzle: channels 0 and 2 exchanged, 1 and 3 in place. *)
Example scenario_swizzle :
  run_dump (reshapeImage uint8_t uint8_t 100 0 8 8 4 1 true image_2x1) 100 8 =
  Some [30; 20; 10; 255; 60; 50; 40; 255].
Proof. vm_compute. reflexivity. Qed.

(** 8-bit to float, with the row size of 32 bytes that makes the kernel see
    two pixels: 10/255, 20/255, 30/255, 1.0 and 40/255, 50/255, 60/255, 1.0 as
    binary32, little-endian. *)
Example scenario_uint8_to_float :
  run_dump (reshapeImage float uint8_t 100 0 32 32 4 1 false image_2x1) 100 32 =
  Some [161; 160; 32; 61; 161; 160; 160; 61; 241; 240; 240; 61; 0; 0; 128; 63;
        161; 160; 32; 62; 201; 200; 72; 62; 241; 240; 112; 62; 0; 0; 128; 63].
Proof. vm_compute. reflexivity. Qed.

(** Expansion of three channels to four by the generic reshape. *)
Example scenario_expansion :
  run_dump (reshape uint8_t 3 4 100 0 6 image_2x1) 100 10 =
  Some [10; 20; 30; 255; 255; 40; 50; 255; 170; 170].
Proof. vm_compute. reflexivity. Qed.

(** The generic reshape is the same function in both headers. *)
Lemma V1_reshape_same t scc dcc dest src n m :
  V1.reshape t scc dcc dest src n m = reshape t scc dcc dest src n m.
Proof. destruct t; reflexivity. Qed.

(** ** Where the kernel departs from the proportional rescale *)

(** C1: the kernel divides the source row size by the size of the DESTINATION
    component. For an 8-bit destination and a float source, a source row of
    16 bytes holds one pixel, but the kernel processes four: it converts the
    pixel (1.0, 0.5, 0.0, 1.0) and then three more pixels read past the row,
    writing 16 destination bytes. The other way round, for a float
    destination and the 8-bit 2 x 1 image (a source row of 8 bytes, two
    pixels), it processes none and leaves the destination untouched. *)
Theorem imageWidth_divides_by_destination_size :
  imageWidth uint8_t 16 = 4 /\
  16 / (sizeof float * 4) = 1 /\
  run_dump (reshapeImage uint8_t float 100 0 16 16 4 1 false pixel_f32) 100 20 =
  Some [255; 127; 0; 255; 0; 0; 0; 0; 0; 0; 0; 0; 0; 0; 0; 0; 170; 170; 170; 170] /\
  imageWidth float 8 = 0 /\
  8 / (sizeof uint8_t * 4) = 2 /\
  run_dump (reshapeImage float uint8_t 100 0 8 32 4 1 false image_2x1) 100 8 =
  Some [170; 170; 170; 170; 170; 170; 170; 170].
Proof. repeat split; vm_compute; reflexivity. Qed.

(** C2: from 8-bit to 32-bit unsigned the product [in * dstMaxValue] is formed
    in [unsigned int] and wraps: source value 2 gives 16843008 where the
    proportional rescale is 33686018, and the fully-on source value 255 gives
    16843008 where it is 0xffffffff. On the pixel (10, 20, 30, 255) every
    destination channel comes out as 0x01010100. *)
Theorem rescale_uint8_to_uint32_wraps :
  rescale uint32_t uint8_t (mkV uint8_t 2) = Some (mkV uint32_t 16843008) /\
  exact_rescale uint32_t uint8_t 2 = 33686018 /\
  rescale uint32_t uint8_t (mkV uint8_t 255) = Some (mkV uint32_t 16843008) /\
  exact_rescale uint32_t uint8_t 255 = 0xffffffff /\
  run_dump (reshapeImage uint32_t uint8_t 100 0 16 16 4 1 false image_2x1) 100 16 =
  Some [0; 1; 1; 1; 0; 1; 1; 1; 0; 1; 1; 1; 0; 1; 1; 1].
Proof. repeat split; vm_compute; reflexivity. Qed.

(** C3: with 32-bit unsigned source and destination, RGBA, swizzle off, the
    pixel (2, 3, 0xffffffff, 1) is converted to (0, 0, 0, 1): the destination
    bytes are not the source bytes. *)
Theorem identity_rescale_uint32_is_not_a_copy :
  dump pixel_u32 0 16 = [2; 0; 0; 0; 3; 0; 0; 0; 255; 255; 255; 255; 1; 0; 0; 0] /\
  run_dump (reshapeImage uint32_t uint32_t 100 0 16 16 4 1 false pixel_u32) 100 16 =
  Some [0; 0; 0; 0; 0; 0; 0; 0; 0; 0; 0; 0; 1; 0; 0; 0] /\
  rescale uint32_t uint32_t (mkV uint32_t 2) = Some (mkV uint32_t 0).
Proof. repeat split; vm_compute; reflexivity. Qed.

(** C5: the specification's swizzle scenario, the 2 x 1 image of 8-bit pixels
    (10, 20, 30, 255), (40, 50, 60, 255) converted to four float channels with
    the swizzle flag set. The source row of 8 bytes holds two pixels, but the
    kernel derives its width from the destination component size and gets 0:
    whatever the memory, buffers, destination stride, channel count and
    height, the run returns the memory unchanged. Destination channel 0 of
    pixel 0 should be the rescaled source channel 2, 30/255; it still holds
    the bytes that were there before. With a row size of 32 bytes, for which
    the kernel's width is 2, the same kernel does write the swizzled pixel
    (30/255, 20/255, 10/255, 1.0): the channel mapping is not at fault. *)
Theorem swizzle_scenario_leaves_destination_untouched :
  (forall dest src dbpr dcc height m,
     reshapeImage float uint8_t dest src 8 dbpr dcc height true m = Some m) /\
  8 / (sizeof uint8_t * 4) = 2 /\
  imageWidth float 8 = 0 /\
  rescale float uint8_t (load uint8_t image_2x1 (channelAddr uint8_t 0 8 4 0 0 2)) =
  Some (mkV float 0x3df0f0f1) /\
  match reshapeImage float uint8_t 100 0 8 32 4 1 true image_2x1 with
  | Some m' => load float m' (channelAddr float 100 32 4 0 0 0) = mkV float 0xaaaaaaaa
  | None => False
  end /\
  run_dump (reshapeImage float uint8_t 100 0 8 32 4 1 true image_2x1) 100 16 =
  Some [170; 170; 170; 170; 170; 170; 170; 170; 170; 170; 170; 170; 170; 170; 170; 170] /\
  run_dump (reshapeImage float uint8_t 100 0 32 32 4 1 true image_2x1) 100 16 =
  Some [241; 240; 240; 61; 161; 160; 160; 61; 161; 160; 32; 61; 0; 0; 128; 63].
Proof.
  split.
  - intros dest src dbpr dcc height m. apply reshapeImage_no_columns.
    vm_compute. discriminate.
  - repeat split; vm_compute; reflexivity.
Qed.

(** * Further properties *)

(** ** Runs of rows, for any per-component operation *)

Lemma imageAt_is_run dstT srcT dest src sbpr dbpr dcc height swz m :
  imageAt dstT srcT dest src sbpr dbpr dcc height swz m =
  imageRun dstT srcT (rescale dstT srcT) (swizzleIndex swz) (getMaxValue dstT)
    dest src sbpr dbpr dcc height m.
Proof. reflexivity. Qed.

Lemma getDefaultAlpha_same t : V1.getDefaultAlpha t = getMaxValue t.
Proof. destruct t; reflexivity. Qed.

(** The copy-only kernel of the older header in closed form. *)
Lemma V1_reshapeImage_closed_form t dest src sbpr dbpr dcc height swz m :
  V1.reshapeImage t dest src sbpr dbpr dcc height swz m =
  imageRun t t Some (swizzleIndex swz) (getMaxValue t) dest src sbpr dbpr dcc height m.
Proof.
  unfold V1.reshapeImage, imageRun. cbv zeta. rewrite getDefaultAlpha_same.
  apply thread_proj.
  eapply opt_rel_impl;
    [| apply (for_loop_rel
         (fun j (s : Z * Z * mem) m2 => s = (src + j * sbpr, dest + j * dbpr, m2)))].
  - intros s m2 ->. reflexivity.
  - intros j [[p q] u] v Hj E. injection E as -> -> ->.
    pose proof (pixels_threaded t t Some (swizzleIndex swz)
                  (getMaxValue t) 4 dcc (Z.min 4 dcc) (imageWidth t sbpr)
                  (src + j * sbpr) (dest + j * dbpr) v) as Hp.
    match type of Hp with
    | opt_rel _ ?x ?y =>
        change (opt_rel
                  (fun (s : Z * Z * mem) m2 =>
                     s = (src + (j + 1) * sbpr, dest + (j + 1) * dbpr, m2))
                  ('(_, _, m) <- x ;;
                   Some (src + j * sbpr + sbpr, dest + j * dbpr + dbpr, m)) y);
        destruct x as [[[p q] m1]|], y as [m2|]
    end; cbn in Hp |- *; try contradiction; [|exact I].
    subst. f_equal. f_equal; lia.
  - f_equal. f_equal; lia.
Qed.

Section RunFacts.
Variables dstT srcT : ctype.
Variable f : value -> option value.
Variable sel : Z -> Z.
Variable fillv : value.
Variables dest src sbpr dbpr dcc height : Z.

Hypothesis f_sound : forall m a w,
  f (load srcT m a) = Some w -> ty w = dstT /\ wf_value w.
Hypothesis sel_range : forall ch, 0 <= ch < 4 -> 0 <= sel ch < 4.
Hypothesis fill_ty : ty fillv = dstT.
Hypothesis fill_wf : wf_value fillv.
Hypothesis dcc_nonneg : 0 <= dcc.

Local Abbreviation width := (imageWidth dstT sbpr).
Local Abbreviation run := (imageRun dstT srcT f sel fillv dest src sbpr dbpr dcc height).
Local Abbreviation rowRun := (pixelsAt dstT srcT f sel fillv 4 dcc (Z.min 4 dcc) width).
Local Abbreviation dstRow := (dstRowBytes dstT dest dbpr width dcc).
Local Abbreviation srcRow := (srcRowBytes srcT src sbpr width).

Lemma rowRun_frame j t t' :
  rowRun (src + j * sbpr) (dest + j * dbpr) t = Some t' ->
  forall a, ~ dstRow j a -> t' a = t a.
Proof.
  intros H a Ha.
  apply (pixelsAt_frame dstT srcT f sel fillv 4 dcc (Z.min 4 dcc)
           f_sound fill_ty ltac:(lia) ltac:(lia) dcc_nonneg _ _ _ _ _ H).
  exact Ha.
Qed.

Lemma imageRun_frame m m' :
  run m = Some m' ->
  forall a, (forall row, 0 <= row < height -> ~ dstRow row a) -> m' a = m a.
Proof.
  unfold imageRun. intros H.
  apply (for_loop_frame _ dstRow 0 height
           ltac:(intros j t t' _; apply rowRun_frame) m m' H).
Qed.

Lemma imageRun_total m :
  (forall m0 a, exists w, f (load srcT m0 a) = Some w) ->
  exists m', run m = Some m'.
Proof.
  intros Hf. unfold imageRun.
  destruct (for_loop_total
              (fun row m1 => rowRun (src + row * sbpr) (dest + row * dbpr) m1)
              (fun _ => True) 0 height m I) as (m' & Hm' & _).
  - intros j t _ _.
    destruct (pixelsAt_total dstT srcT f sel fillv 4 dcc (Z.min 4 dcc) width
                (src + j * sbpr) (dest + j * dbpr) t Hf) as (t' & Ht').
    exists t'. split; [exact Ht' | exact I].
  - exists m'. exact Hm'.
Qed.

Hypothesis stride_packed : width * dcc * sizeof dstT <= dbpr.
Hypothesis no_alias : forall r r' a,
  0 <= r < height -> 0 <= r' < height -> srcRow r a -> dstRow r' a -> False.

Lemma imageRun_spec m m' row col :
  run m = Some m' ->
  0 <= row < height -> 0 <= col < width ->
  (forall ch, 0 <= ch < Z.min 4 dcc ->
     f (load srcT m (channelAddr srcT src sbpr 4 row col (sel ch))) =
     Some (load dstT m' (channelAddr dstT dest dbpr dcc row col ch))) /\
  (forall ch, 4 <= ch < dcc ->
     load dstT m' (channelAddr dstT dest dbpr dcc row col ch) = fillv).
Proof.
  unfold imageRun, channelAddr. intros H Hrow Hcol.
  destruct (for_loop_block _ dstRow 0 height
              ltac:(intros j t t' _; apply rowRun_frame) m m' row H Hrow)
    as (m1 & m2 & Hb & Hpre & Hpost).
  pose proof (sizeof_pos dstT) as Hd. pose proof (sizeof_pos srcT) as Hs.
  destruct (pixelsAt_spec dstT srcT f sel fillv 4 dcc (Z.min 4 dcc)
              f_sound fill_ty fill_wf ltac:(lia) ltac:(lia) ltac:(lia) dcc_nonneg
              ltac:(intros ? ?; apply sel_range; lia)
              _ _ _ _ _ col Hb) as [Hcopy Hfill].
  - intros x Hx1 Hx2. apply (no_alias row row x Hrow Hrow Hx1 Hx2).
  - assumption.
  - assert (Hdst : forall ch, 0 <= ch < dcc ->
              load dstT m' (elem dstT (dest + row * dbpr) (col * dcc + ch)) =
              load dstT m2 (elem dstT (dest + row * dbpr) (col * dcc + ch))).
    { intros ch Hch. apply load_ext. intros x Hx. apply Hpost. intros j Hj Hw.
      unfold dstRowBytes in Hw. unfold elem in Hx.
      assert (A0 : (col + 1) * dcc <= width * dcc) by nia.
      assert (A1 : (col * dcc + ch + 1) * sizeof dstT <= width * dcc * sizeof dstT) by nia.
      assert (A2 : 0 <= dbpr) by nia.
      pose proof (block_before dbpr row j A2 ltac:(lia)). lia. }
    split.
    + intros ch Hch. pose proof (sel_range ch ltac:(lia)) as Hsel.
      assert (Hsrc : load srcT m1 (elem srcT (src + row * sbpr) (col * 4 + sel ch)) =
                     load srcT m (elem srcT (src + row * sbpr) (col * 4 + sel ch))).
      { apply load_ext. intros x Hx. apply Hpre. intros j Hj Hw.
        apply (no_alias row j x Hrow ltac:(lia)); [|assumption].
        unfold srcRowBytes. unfold elem in Hx. nia. }
      rewrite <- Hsrc, Hdst by lia. apply Hcopy. assumption.
    + intros ch Hch. rewrite Hdst by lia. apply Hfill. assumption.
Qed.
End RunFacts.

(** ** The rescaling kernel beyond the swizzled case *)

Lemma swizzleIndex_off ch : 0 <= ch < 4 -> swizzleIndex false ch = ch.
Proof.
  intros H. assert (E : ch = 0 \/ ch = 1 \/ ch = 2 \/ ch = 3) by lia.
  destruct E as [-> | [-> | [-> | ->]]]; reflexivity.
Qed.

Lemma swizzleIndex_twice ch :
  0 <= ch < 4 -> swizzleIndex true (swizzleIndex true ch) = ch.
Proof.
  intros H. assert (E : ch = 0 \/ ch = 1 \/ ch = 2 \/ ch = 3) by lia.
  destruct E as [-> | [-> | [-> | ->]]]; reflexivity.
Qed.

(** X1: with the swizzle flag cleared and a destination component no wider
    than the source component, a completed run leaves in destination channel
    [ch] of every pixel of the image the rescaled source channel [ch], for
    each of the [min(4, dstChannelCount)] copied channels. The pixels are
    those of the source row, [srcBytesPerRow / (sizeof(srcComponentType) * 4)]
    of them, and the destination stride need only hold that many. The
    kernel's own width may be larger: the bytes it reads and the bytes it
    writes over that width must not overlap. *)
Theorem reshapeImage_unswizzled dstT srcT dest src sbpr dbpr dcc height m m' :
  0 <= dcc -> 0 <= sbpr ->
  sizeof dstT <= sizeof srcT ->
  sbpr / (sizeof srcT * 4) * dcc * sizeof dstT <= dbpr ->
  (forall r r' a, 0 <= r < height -> 0 <= r' < height ->
     srcRowBytes srcT src sbpr (imageWidth dstT sbpr) r a ->
     dstRowBytes dstT dest dbpr (imageWidth dstT sbpr) dcc r' a -> False) ->
  reshapeImage dstT srcT dest src sbpr dbpr dcc height false m = Some m' ->
  forall row col ch,
    0 <= row < height -> 0 <= col < sbpr / (sizeof srcT * 4) -> 0 <= ch < Z.min 4 dcc ->
    rescale dstT srcT (load srcT m (channelAddr srcT src sbpr 4 row col ch)) =
    Some (load dstT m' (channelAddr dstT dest dbpr dcc row col ch)).
Proof.
  intros Hdcc Hsbpr Hsz Hstride Halias H row col ch Hrow Hcol Hch.
  pose proof (reshapeImage_image_pixel dstT srcT dest src sbpr dbpr dcc height false m m'
                Hdcc Hsbpr Hsz Hstride Halias H row col ch Hrow Hcol Hch) as S.
  rewrite swizzleIndex_off in S by lia. exact S.
Qed.

(** An 8-bit destination of packed rows, one pixel of four bytes each, and a
    float source of two rows of 16 bytes: the kernel runs over four pixels a
    row, and pixel 0 of row 0 keeps the value the first row gave it. *)
Lemma reshapeImage_unswizzled_witness :
  match reshapeImage uint8_t float 100 0 16 4 4 2 false pixel_f32 with
  | Some m' =>
      rescale uint8_t float (load float pixel_f32 (channelAddr float 0 16 4 0 0 1)) =
      Some (load uint8_t m' (channelAddr uint8_t 100 4 4 0 0 1))
  | None => False
  end.
Proof.
  destruct (reshapeImage uint8_t float 100 0 16 4 4 2 false pixel_f32) as [m'|] eqn:E.
  - refine (reshapeImage_unswizzled uint8_t float 100 0 16 4 4 2 pixel_f32 m'
              ltac:(lia) ltac:(lia) ltac:(vm_compute; discriminate)
              ltac:(vm_compute; discriminate) _ E 0 0 1
              ltac:(lia) ltac:(vm_compute; split; [discriminate | reflexivity])
              ltac:(lia)).
    intros r r' a Hr Hr'. unfold srcRowBytes, dstRowBytes.
    change (imageWidth uint8_t 16) with 4. change (sizeof uint8_t) with 1.
    change (sizeof float) with 4. lia.
  - vm_compute in E. discriminate E.
Defined.

(** X2: when [dstChannelCount] exceeds 4, every destination channel from
    index 4 on holds the destination type's maximum value. *)
Theorem reshapeImage_fills_from_channel_4 dstT srcT dest src sbpr dbpr dcc height swz m m' :
  0 <= dcc ->
  imageWidth dstT sbpr * dcc * sizeof dstT <= dbpr ->
  (forall r r' a, 0 <= r < height -> 0 <= r' < height ->
     srcRowBytes srcT src sbpr (imageWidth dstT sbpr) r a ->
     dstRowBytes dstT dest dbpr (imageWidth dstT sbpr) dcc r' a -> False) ->
  reshapeImage dstT srcT dest src sbpr dbpr dcc height swz m = Some m' ->
  forall row col ch,
    0 <= row < height -> 0 <= col < imageWidth dstT sbpr -> 4 <= ch < dcc ->
    load dstT m' (channelAddr dstT dest dbpr dcc row col ch) = getMaxValue dstT.
Proof.
  intros Hdcc Hstride Halias H row col ch Hrow Hcol Hch.
  rewrite reshapeImage_closed_form, imageAt_is_run in H.
  destruct (imageRun_spec dstT srcT (rescale dstT srcT) (swizzleIndex swz)
              (getMaxValue dstT) dest src sbpr dbpr dcc height
              ltac:(intros ? ? ?; apply rescale_sound) (swizzleIndex_range swz)
              (getMaxValue_ty dstT) (getMaxValue_wf dstT) Hdcc Hstride Halias
              m m' row col H Hrow Hcol) as [_ Hfill].
  apply Hfill. exact Hch.
Qed.

Lemma reshapeImage_fills_from_channel_4_witness :
  match reshapeImage uint8_t uint8_t 100 0 8 10 5 1 true image_2x1 with
  | Some m' =>
      load uint8_t m' (channelAddr uint8_t 100 10 5 0 1 4) = getMaxValue uint8_t
  | None => False
  end.
Proof.
  destruct (reshapeImage uint8_t uint8_t 100 0 8 10 5 1 true image_2x1) as [m'|] eqn:E.
  - refine (reshapeImage_fills_from_channel_4 uint8_t uint8_t 100 0 8 10 5 1 true
              image_2x1 m' ltac:(lia) ltac:(vm_compute; discriminate) _ E 0 1 4
              ltac:(lia) ltac:(vm_compute; split; [discriminate | reflexivity])
              ltac:(lia)).
    intros r r' a Hr Hr'. unfold srcRowBytes, dstRowBytes.
    change (imageWidth uint8_t 8) with 2. change (sizeof uint8_t) with 1. lia.
  - vm_compute in E. discriminate E.
Defined.

(** X3: between two 8-bit buffers that do not overlap the kernel always
    completes, and every copied destination component equals the source
    component it was read from: the rescale is an exact copy. *)
Theorem reshapeImage_uint8_exact_copy dest src sbpr dbpr dcc height swz m :
  0 <= dcc ->
  imageWidth uint8_t sbpr * dcc * sizeof uint8_t <= dbpr ->
  (forall r r' a, 0 <= r < height -> 0 <= r' < height ->
     srcRowBytes uint8_t src sbpr (imageWidth uint8_t sbpr) r a ->
     dstRowBytes uint8_t dest dbpr (imageWidth uint8_t sbpr) dcc r' a -> False) ->
  exists m',
    reshapeImage uint8_t uint8_t dest src sbpr dbpr dcc height swz m = Some m' /\
    forall row col ch,
      0 <= row < height -> 0 <= col < imageWidth uint8_t sbpr -> 0 <= ch < Z.min 4 dcc ->
      load uint8_t m' (channelAddr uint8_t dest dbpr dcc row col ch) =
      load uint8_t m (channelAddr uint8_t src sbpr 4 row col (swizzleIndex swz ch)).
Proof.
  intros Hdcc Hstride Halias.
  destruct (reshapeImage_uint8_completes dest src sbpr dbpr dcc height swz m) as (m' & H).
  exists m'. split; [exact H|].
  intros row col ch Hrow Hcol Hch.
  rewrite reshapeImage_closed_form in H.
  pose proof (imageAt_spec uint8_t uint8_t dest src sbpr dbpr dcc height swz
                Hdcc Hstride Halias m m' row col ch H Hrow Hcol Hch) as S.
  rewrite rescale_uint8_id in S by (apply load_ty || apply load_wf).
  congruence.
Qed.

Lemma reshapeImage_uint8_exact_copy_witness :
  exists m',
    reshapeImage uint8_t uint8_t 100 0 8 8 4 1 false image_2x1 = Some m' /\
    load uint8_t m' (channelAddr uint8_t 100 8 4 0 1 3) =
    load uint8_t image_2x1 (channelAddr uint8_t 0 8 4 0 1 (swizzleIndex false 3)).
Proof.
  destruct (reshapeImage_uint8_exact_copy 100 0 8 8 4 1 false image_2x1
              ltac:(lia) ltac:(vm_compute; discriminate)) as (m' & Hrun & Hcopy).
  - intros r r' a Hr Hr'. unfold srcRowBytes, dstRowBytes.
    change (imageWidth uint8_t 8) with 2. change (sizeof uint8_t) with 1. lia.
  - exists m'. split; [exact Hrun|].
    apply Hcopy; [lia | vm_compute; split; [discriminate | reflexivity] | lia].
Defined.

(** ** The copy-only kernel of the older header *)

Lemma copy_sound t (m : mem) a w : Some (load t m a) = Some w -> ty w = t /\ wf_value w.
Proof. intros E. injection E as <-. split; [apply load_ty | apply load_wf]. Qed.

(** The copy-only kernel always completes, for every component type;
    when source and destination do not overlap, each copied destination
    component equals the source component selected by the swizzle (the same
    channel with the flag cleared, channels 0 and 2 exchanged with it set),
    whatever the component type, and channels from index 4 on hold the
    default alpha. *)
Lemma V1_reshapeImage_run t dest src sbpr dbpr dcc height swz m :
  0 <= dcc ->
  imageWidth t sbpr * dcc * sizeof t <= dbpr ->
  (forall r r' a, 0 <= r < height -> 0 <= r' < height ->
     srcRowBytes t src sbpr (imageWidth t sbpr) r a ->
     dstRowBytes t dest dbpr (imageWidth t sbpr) dcc r' a -> False) ->
  exists m',
    V1.reshapeImage t dest src sbpr dbpr dcc height swz m = Some m' /\
    forall row col, 0 <= row < height -> 0 <= col < imageWidth t sbpr ->
      (forall ch, 0 <= ch < Z.min 4 dcc ->
         load t m' (channelAddr t dest dbpr dcc row col ch) =
         load t m (channelAddr t src sbpr 4 row col (swizzleIndex swz ch))) /\
      (forall ch, 4 <= ch < dcc ->
         load t m' (channelAddr t dest dbpr dcc row col ch) = V1.getDefaultAlpha t).
Proof.
  intros Hdcc Hstride Halias.
  destruct (imageRun_total t t Some (swizzleIndex swz) (getMaxValue t)
              dest src sbpr dbpr dcc height m
              ltac:(intros m0 a; eexists; reflexivity)) as (m' & H).
  exists m'. split; [rewrite V1_reshapeImage_closed_form; exact H|].
  intros row col Hrow Hcol.
  destruct (imageRun_spec t t Some (swizzleIndex swz) (getMaxValue t)
              dest src sbpr dbpr dcc height (copy_sound t) (swizzleIndex_range swz)
              (getMaxValue_ty t) (getMaxValue_wf t) Hdcc Hstride Halias
              m m' row col H Hrow Hcol) as [Hcopy Hfill].
  split.
  - intros ch Hch. specialize (Hcopy ch Hch). congruence.
  - intros ch Hch. rewrite getDefaultAlpha_same. apply Hfill. exact Hch.
Qed.

(** X4: the copy-only kernel always completes, for every component type;
    when source and destination do not overlap, each copied destination
    component equals the source component selected by the swizzle (the same
    channel with the flag cleared, channels 0 and 2 exchanged with it set),
    whatever the component type, and channels from index 4 on hold the
    default alpha. *)
Theorem V1_reshapeImage_copies t dest src sbpr dbpr dcc height swz m :
  0 <= dcc ->
  imageWidth t sbpr * dcc * sizeof t <= dbpr ->
  (forall r r' a, 0 <= r < height -> 0 <= r' < height ->
     srcRowBytes t src sbpr (imageWidth t sbpr) r a ->
     dstRowBytes t dest dbpr (imageWidth t sbpr) dcc r' a -> False) ->
  exists m',
    V1.reshapeImage t dest src sbpr dbpr dcc height swz m = Some m' /\
    forall row col, 0 <= row < height -> 0 <= col < imageWidth t sbpr ->
      (forall ch, 0 <= ch < Z.min 4 dcc ->
         load t m' (channelAddr t dest dbpr dcc row col ch) =
         load t m (channelAddr t src sbpr 4 row col (swizzleIndex swz ch))) /\
      (forall ch, 4 <= ch < dcc ->
         load t m' (channelAddr t dest dbpr dcc row col ch) = V1.getDefaultAlpha t).
Proof. exact (V1_reshapeImage_run t dest src sbpr dbpr dcc height swz m). Qed.

Lemma V1_reshapeImage_copies_witness :
  exists m',
    V1.reshapeImage uint32_t 100 0 16 16 4 1 true pixel_u32 = Some m' /\
    load uint32_t m' (channelAddr uint32_t 100 16 4 0 0 0) =
    load uint32_t pixel_u32 (channelAddr uint32_t 0 16 4 0 0 (swizzleIndex true 0)).
Proof.
  destruct (V1_reshapeImage_copies uint32_t 100 0 16 16 4 1 true pixel_u32
              ltac:(lia) ltac:(vm_compute; discriminate)) as (m' & Hrun & Hspec).
  - intros r r' a Hr Hr'. unfold srcRowBytes, dstRowBytes.
    change (imageWidth uint32_t 16) with 1. change (sizeof uint32_t) with 4. lia.
  - exists m'. split; [exact Hrun|].
    destruct (Hspec 0 0 ltac:(lia) ltac:(vm_compute; split; [discriminate | reflexivity]))
      as [Hcopy _].
    apply Hcopy. vm_compute. split; [discriminate | reflexivity].
Defined.

(** X5: a completed run of the copy-only kernel changes no byte outside the
    first [width * dstChannelCount * sizeof(dstComponentType)] bytes of each
    of the first [height] destination rows. *)
Theorem V1_copy_kernel_frame t dest src sbpr dbpr dcc height swz m m' :
  0 <= dcc ->
  V1.reshapeImage t dest src sbpr dbpr dcc height swz m = Some m' ->
  forall a,
    (forall row, 0 <= row < height ->
       ~ dstRowBytes t dest dbpr (imageWidth t sbpr) dcc row a) ->
    m' a = m a.
Proof.
  intros Hdcc H. rewrite V1_reshapeImage_closed_form in H.
  exact (imageRun_frame t t Some (swizzleIndex swz) (getMaxValue t)
           dest src sbpr dbpr dcc height (copy_sound t) (getMaxValue_ty t) Hdcc m m' H).
Qed.

Lemma V1_copy_kernel_frame_witness :
  match V1.reshapeImage uint8_t 100 0 8 8 3 2 false image_2x1 with
  | Some m' => m' 107 = image_2x1 107 /\ m' 99 = image_2x1 99
  | None => False
  end.
Proof.
  destruct (V1.reshapeImage uint8_t 100 0 8 8 3 2 false image_2x1) as [m'|] eqn:E.
  - split;
      apply (V1_copy_kernel_frame uint8_t 100 0 8 8 3 2 false
               image_2x1 m' ltac:(lia) E);
      intros row Hrow; unfold dstRowBytes;
      change (imageWidth uint8_t 8) with 2; change (sizeof uint8_t) with 1; lia.
  - vm_compute in E. discriminate E.
Defined.

(** *** Swizzling twice, and swizzling in place *)

Lemma imageWidth_of_packed t w s :
  0 <= w -> w * 4 * sizeof t <= s -> w <= imageWidth t s.
Proof.
  intros Hw Hs. pose proof (sizeof_pos t) as Hsz. unfold imageWidth.
  apply Z.div_le_lower_bound; [lia|].
  apply Z.div_le_lower_bound; [lia|]. lia.
Qed.

(** X6: swizzling an image of 4-channel pixels into a second buffer and that
    one into a third with the copy-only kernel restores the channel order:
    every component of the third image equals the component of the first at
    the same row, pixel and channel. *)
Theorem V1_swizzle_twice t a b c sa sb sc height m :
  imageWidth t sa * 4 * sizeof t <= sb ->
  imageWidth t sb * 4 * sizeof t <= sc ->
  (forall r r' x, 0 <= r < height -> 0 <= r' < height ->
     srcRowBytes t a sa (imageWidth t sa) r x ->
     dstRowBytes t b sb (imageWidth t sa) 4 r' x -> False) ->
  (forall r r' x, 0 <= r < height -> 0 <= r' < height ->
     srcRowBytes t b sb (imageWidth t sb) r x ->
     dstRowBytes t c sc (imageWidth t sb) 4 r' x -> False) ->
  exists m1 m2,
    V1.reshapeImage t b a sa sb 4 height true m = Some m1 /\
    V1.reshapeImage t c b sb sc 4 height true m1 = Some m2 /\
    forall row col ch,
      0 <= row < height -> 0 <= col < imageWidth t sa -> 0 <= ch < 4 ->
      load t m2 (channelAddr t c sc 4 row col ch) =
      load t m (channelAddr t a sa 4 row col ch).
Proof.
  intros Hs1 Hs2 Ha1 Ha2.
  destruct (V1_reshapeImage_run t b a sa sb 4 height true m ltac:(lia) Hs1 Ha1)
    as (m1 & Hrun1 & Hspec1).
  destruct (V1_reshapeImage_run t c b sb sc 4 height true m1 ltac:(lia) Hs2 Ha2)
    as (m2 & Hrun2 & Hspec2).
  exists m1, m2. split; [exact Hrun1|]. split; [exact Hrun2|].
  intros row col ch Hrow Hcol Hch.
  pose proof (imageWidth_of_packed t (imageWidth t sa) sb ltac:(lia) Hs1) as Hw.
  destruct (Hspec2 row col Hrow ltac:(lia)) as [H2 _].
  destruct (Hspec1 row col Hrow Hcol) as [H1 _].
  rewrite (H2 ch ltac:(lia)).
  pose proof (swizzleIndex_range true ch Hch) as Hsel.
  rewrite (H1 (swizzleIndex true ch) ltac:(lia)).
  rewrite swizzleIndex_twice by exact Hch. reflexivity.
Qed.

Lemma V1_swizzle_twice_witness :
  exists m1 m2,
    V1.reshapeImage uint8_t 100 0 8 8 4 1 true image_2x1 = Some m1 /\
    V1.reshapeImage uint8_t 200 100 8 8 4 1 true m1 = Some m2 /\
    load uint8_t m2 (channelAddr uint8_t 200 8 4 0 1 0) =
    load uint8_t image_2x1 (channelAddr uint8_t 0 8 4 0 1 0).
Proof.
  destruct (V1_swizzle_twice uint8_t 0 100 200 8 8 8 1 image_2x1
              ltac:(vm_compute; discriminate) ltac:(vm_compute; discriminate))
    as (m1 & m2 & H1 & H2 & H3).
  - intros r r' x Hr Hr'. unfold srcRowBytes, dstRowBytes.
    change (imageWidth uint8_t 8) with 2. change (sizeof uint8_t) with 1. lia.
  - intros r r' x Hr Hr'. unfold srcRowBytes, dstRowBytes.
    change (imageWidth uint8_t 8) with 2. change (sizeof uint8_t) with 1. lia.
  - exists m1, m2. split; [exact H1|]. split; [exact H2|].
    apply H3; [lia | vm_compute; split; [discriminate | reflexivity] | lia].
Defined.

Lemma load_store_load t (m m0 : mem) a b :
  load t (store m a (load t m0 b)) a = load t m0 b.
Proof. exact (load_store_same m a (load t m0 b) (load_wf t m0 b)). Qed.

Lemma load_store_load_other t (m m0 : mem) a b c :
  c + sizeof t <= a \/ a + sizeof t <= c ->
  load t (store m a (load t m0 b)) c = load t m c.
Proof. intros H. exact (load_store_other t m a (load t m0 b) c H). Qed.

(** One pixel swizzled onto itself: channel 0 is overwritten before channel 2
    reads it. *)
Lemma pixel_swizzle_in_place t fillv q u u' :
  pixelAt t t Some (swizzleIndex true) fillv 4 4 4 q q u = Some u' ->
  load t u' (elem t q 0) = load t u (elem t q 2) /\
  load t u' (elem t q 1) = load t u (elem t q 1) /\
  load t u' (elem t q 2) = load t u (elem t q 2) /\
  load t u' (elem t q 3) = load t u (elem t q 3).
Proof.
  unfold pixelAt.
  rewrite for_loop_first by lia. unfold copyBody at 1. cbn [bind]. change (0 + 1) with 1.
  rewrite for_loop_first by lia. unfold copyBody at 1. cbn [bind]. change (1 + 1) with 2.
  rewrite for_loop_first by lia. unfold copyBody at 1. cbn [bind]. change (2 + 1) with 3.
  rewrite for_loop_first by lia. unfold copyBody at 1. cbn [bind]. change (3 + 1) with 4.
  rewrite (for_loop_empty _ 4 4) by lia. cbn [bind].
  rewrite (for_loop_empty _ 4 4) by lia.
  change (swizzleIndex true 0) with 2. change (swizzleIndex true 1) with 1.
  change (swizzleIndex true 2) with 0. change (swizzleIndex true 3) with 3.
  intros E. injection E as <-.
  pose proof (sizeof_pos t) as Hsz.
  assert (D : forall i j, i <> j ->
            elem t q j + sizeof t <= elem t q i \/ elem t q i + sizeof t <= elem t q j).
  { intros i j Hij. unfold elem. nia. }
  repeat split.
  - rewrite !load_store_load_other by (apply D; lia). apply load_store_load.
  - rewrite !load_store_load_other by (apply D; lia). rewrite load_store_load.
    rewrite !load_store_load_other by (apply D; lia). reflexivity.
  - rewrite !load_store_load_other by (apply D; lia). rewrite load_store_load.
    rewrite !load_store_load_other by (apply D; lia). apply load_store_load.
  - rewrite load_store_load.
    rewrite !load_store_load_other by (apply D; lia). reflexivity.
Qed.

(** X7: swizzling in place (source and destination the same buffer, 4
    channels) with the copy-only kernel does not exchange channels 0 and 2:
    channel 0 receives the value of channel 2, and channels 1, 2 and 3 keep
    theirs, so the original channel 0 is lost. *)
Theorem V1_swizzle_in_place t p s height m :
  exists m',
    V1.reshapeImage t p p s s 4 height true m = Some m' /\
    forall row col, 0 <= row < height -> 0 <= col < imageWidth t s ->
      load t m' (channelAddr t p s 4 row col 0) = load t m (channelAddr t p s 4 row col 2) /\
      load t m' (channelAddr t p s 4 row col 1) = load t m (channelAddr t p s 4 row col 1) /\
      load t m' (channelAddr t p s 4 row col 2) = load t m (channelAddr t p s 4 row col 2) /\
      load t m' (channelAddr t p s 4 row col 3) = load t m (channelAddr t p s 4 row col 3).
Proof.
  destruct (imageRun_total t t Some (swizzleIndex true) (getMaxValue t)
              p p s s 4 height m ltac:(intros m0 a; eexists; reflexivity)) as (m' & H).
  exists m'. split; [rewrite V1_reshapeImage_closed_form; exact H|].
  intros row col Hrow Hcol.
  pose proof (sizeof_pos t) as Hsz.
  assert (Hpack : imageWidth t s * 4 * sizeof t <= s).
  { unfold imageWidth.
    pose proof (Z.mul_div_le (s / sizeof t) 4 ltac:(lia)).
    pose proof (Z.mul_div_le s (sizeof t) ltac:(lia)). nia. }
  assert (Hs : 0 <= s) by nia.
  unfold imageRun in H.
  destruct (for_loop_block _ (dstRowBytes t p s (imageWidth t s) 4) 0 height
              ltac:(intros j u u' _;
                    apply (rowRun_frame t t Some (swizzleIndex true) (getMaxValue t)
                             p p s s 4 (copy_sound t) (getMaxValue_ty t) ltac:(lia)))
              m m' row H Hrow)
    as (r1 & r2 & Hrow_run & Hrow_pre & Hrow_post).
  unfold pixelsAt in Hrow_run.
  destruct (for_loop_block _ (pixelBytes t 4 (p + row * s)) 0 (imageWidth t s)
              ltac:(intros j u u' _;
                    apply (pixel_body_frame t t Some (swizzleIndex true) (getMaxValue t)
                             4 4 (Z.min 4 4) (copy_sound t) (getMaxValue_ty t)
                             ltac:(lia) ltac:(lia) ltac:(lia)))
              r1 r2 col Hrow_run Hcol)
    as (c1 & c2 & Hpix & Hpix_pre & Hpix_post).
  change (Z.min 4 4) with 4 in Hpix.
  apply pixel_swizzle_in_place in Hpix.
  assert (Inside : forall ch x, 0 <= ch < 4 ->
            elem t (elem t (p + row * s) (col * 4)) ch <= x
            < elem t (elem t (p + row * s) (col * 4)) ch + sizeof t ->
            pixelBytes t 4 (p + row * s) col x /\
            dstRowBytes t p s (imageWidth t s) 4 row x).
  { intros ch x Hch Hx. unfold pixelBytes, dstRowBytes, elem in *.
    pose proof (block_inside (imageWidth t s) (4 * sizeof t) col ltac:(lia) Hcol) as B1.
    assert (B2 : 0 <= ch * sizeof t <= 3 * sizeof t) by nia.
    lia. }
  assert (Before : forall ch, 0 <= ch < 4 ->
            load t c1 (elem t (elem t (p + row * s) (col * 4)) ch) =
            load t m (channelAddr t p s 4 row col ch)).
  { intros ch Hch. unfold channelAddr.
    replace (elem t (p + row * s) (col * 4 + ch))
      with (elem t (elem t (p + row * s) (col * 4)) ch) by (unfold elem; lia).
    apply load_ext. intros x Hx. destruct (Inside ch x Hch Hx) as [Hp Hr].
    rewrite Hpix_pre.
    - apply Hrow_pre. intros j Hj Hw. unfold dstRowBytes in *.
      pose proof (block_before s j row Hs ltac:(lia)). lia.
    - intros j Hj Hw. apply (pixelBytes_disjoint t 4 (p + row * s) j col x);
        [lia | assumption | assumption]. }
  assert (After : forall ch, 0 <= ch < 4 ->
            load t m' (channelAddr t p s 4 row col ch) =
            load t c2 (elem t (elem t (p + row * s) (col * 4)) ch)).
  { intros ch Hch. unfold channelAddr.
    replace (elem t (p + row * s) (col * 4 + ch))
      with (elem t (elem t (p + row * s) (col * 4)) ch) by (unfold elem; lia).
    apply load_ext. intros x Hx. destruct (Inside ch x Hch Hx) as [Hp Hr].
    rewrite Hrow_post.
    - apply Hpix_post. intros j Hj Hw.
      apply (pixelBytes_disjoint t 4 (p + row * s) j col x);
        [lia | assumption | assumption].
    - intros j Hj Hw. unfold dstRowBytes in *.
      pose proof (block_before s row j Hs ltac:(lia)). lia. }
  destruct Hpix as (P0 & P1 & P2 & P3).
  rewrite !After by lia. rewrite <- !Before by lia.
  repeat split; assumption.
Qed.

Lemma V1_swizzle_in_place_witness :
  exists m',
    V1.reshapeImage uint8_t 0 0 8 8 4 1 true image_2x1 = Some m' /\
    load uint8_t m' (channelAddr uint8_t 0 8 4 0 0 0) =
    load uint8_t image_2x1 (channelAddr uint8_t 0 8 4 0 0 2) /\
    load uint8_t m' (channelAddr uint8_t 0 8 4 0 0 2) =
    load uint8_t image_2x1 (channelAddr uint8_t 0 8 4 0 0 2).
Proof.
  destruct (V1_swizzle_in_place uint8_t 0 8 1 image_2x1) as (m' & Hrun & Hspec).
  exists m'. split; [exact Hrun|].
  destruct (Hspec 0 0 ltac:(lia) ltac:(vm_compute; split; [discriminate | reflexivity]))
    as (H0 & _ & H2 & _).
  split; assumption.
Defined.

(** ** Where the rescale is defined *)

(** [int] arithmetic between the 8- and 16-bit types stays within [int]. *)
Lemma rescale_small_int dstT srcT z :
  is_float dstT || is_unsigned32 dstT || is_int32 dstT = false ->
  is_float srcT || is_unsigned32 srcT || is_int32 srcT = false ->
  in_range srcT z = true ->
  rescale dstT srcT (mkV srcT z) =
  Some (mkV dstT (wrap dstT (exact_rescale dstT srcT z))).
Proof.
  intros Hd Hs Hz. apply in_range_spec in Hz.
  assert (Hz16 : 0 <= z < 2 ^ 16) by (destruct srcT; try discriminate Hs; lia).
  assert (HM : 0 < rep (getMaxValue dstT) <= 0x3c00 /\
               wrap int32_t (rep (getMaxValue dstT)) = rep (getMaxValue dstT))
    by (destruct dstT; try discriminate Hd; vm_compute; repeat split; discriminate).
  assert (HS : 0 < rep (getMaxValue srcT) <= 0x3c00 /\
               wrap int32_t (rep (getMaxValue srcT)) = rep (getMaxValue srcT))
    by (destruct srcT; try discriminate Hs; vm_compute; repeat split; discriminate).
  destruct HM as [HM WM]. destruct HS as [HS WS].
  set (M := rep (getMaxValue dstT)) in *. set (S := rep (getMaxValue srcT)) in *.
  assert (E0 : in_range int32_t z = true) by (apply in_range_spec; lia).
  assert (E1 : in_range int32_t (z * M) = true) by (apply in_range_spec; nia).
  assert (Q : 0 <= Z.quot (z * M) S <= z * M).
  { rewrite Z.quot_div_nonneg by nia. split.
    - apply Z.div_pos; nia.
    - apply Z.div_le_upper_bound; nia. }
  assert (E2 : in_range int32_t (Z.quot (z * M) S) = true) by (apply in_range_spec; nia).
  assert (ES : (S =? 0) = false) by (apply Z.eqb_neq; lia).
  assert (Tm : ty (getMaxValue dstT) = dstT) by apply getMaxValue_ty.
  assert (Ts : ty (getMaxValue srcT) = srcT) by apply getMaxValue_ty.
  assert (A1 : arith_type srcT dstT = int32_t)
    by (destruct srcT; try discriminate Hs; destruct dstT; try discriminate Hd; reflexivity).
  assert (A2 : arith_type int32_t srcT = int32_t)
    by (destruct srcT; try discriminate Hs; reflexivity).
  assert (C1 : convert int32_t (mkV srcT z) = Some (mkV int32_t z)).
  { unfold convert. cbn [ty rep].
    destruct srcT; try discriminate Hs; cbv beta iota;
      rewrite (wrap_id int32_t z E0); reflexivity. }
  assert (C2 : convert int32_t (getMaxValue dstT) = Some (mkV int32_t M)).
  { unfold convert. rewrite Tm. fold M.
    destruct dstT; try discriminate Hd; cbv beta iota; rewrite WM; reflexivity. }
  assert (C3 : convert int32_t (getMaxValue srcT) = Some (mkV int32_t S)).
  { unfold convert. rewrite Ts. fold S.
    destruct srcT; try discriminate Hs; cbv beta iota; rewrite WS; reflexivity. }
  assert (C4 : convert int32_t (mkV int32_t (z * M)) = Some (mkV int32_t (z * M))).
  { unfold convert. cbn [ty rep]. rewrite wrap_id by exact E1. reflexivity. }
  unfold rescale, cmul. cbn [ty rep]. rewrite Tm, A1, C1, C2. cbn [bind rep].
  rewrite E1. cbn [bind]. unfold cdiv. cbn [ty rep]. rewrite Ts, A2, C4, C3.
  cbn [bind rep]. rewrite ES, E2. cbn [bind].
  unfold convert, exact_rescale. fold M. fold S. cbn [ty rep].
  rewrite Z.quot_div_nonneg by nia.
  destruct dstT; try discriminate Hd; reflexivity.
Qed.

Lemma rescale_defined_total dstT srcT v :
  rescale_defined dstT srcT = true -> ty v = srcT -> wf_value v ->
  exists w, rescale dstT srcT v = Some w.
Proof.
  destruct v as [tv z]. unfold wf_value. cbn [ty rep]. intros Hd -> Hwf.
  destruct (is_float dstT || is_unsigned32 dstT || is_int32 dstT) eqn:Ed;
    [|destruct (is_float srcT || is_unsigned32 srcT || is_int32 srcT) eqn:Es;
      [|eexists; exact (rescale_small_int dstT srcT z Ed Es Hwf)]].
  - destruct dstT; try discriminate Ed; destruct srcT; try discriminate Hd;
      unfold rescale, cmul, cdiv;
      cbn [getMaxValue ty rep arith_type is_float is_unsigned32 orb convert bind];
      try (eexists; reflexivity);
      match goal with
      | |- context [if ?c then None else _] =>
          let E := fresh "E" in
          destruct c eqn:E; [vm_compute in E; discriminate E|]
      end; cbn [bind convert ty rep]; eexists; reflexivity.
  - destruct dstT; try discriminate Ed; destruct srcT; try discriminate Es;
      try discriminate Hd;
      unfold rescale, cmul, cdiv;
      cbn [getMaxValue ty rep arith_type is_float is_unsigned32 orb convert bind];
      try (eexists; reflexivity);
      match goal with
      | |- context [if ?c then None else _] =>
          let E := fresh "E" in
          destruct c eqn:E; [vm_compute in E; discriminate E|]
      end; cbn [bind convert ty rep]; eexists; reflexivity.
Qed.

(** X8: the image kernel completes on every memory and every argument for
    the pairs of component types in [rescale_defined] (a float destination;
    a 32-bit unsigned type on either side of an integer pair; 8- and 16-bit
    types between themselves). For every other pair it has no defined result
    on a memory whose bytes are all 127: the [int] product overflows, or the
    float result does not fit the integer destination. *)
Theorem reshapeImage_defined_pairs dstT srcT :
  if rescale_defined dstT srcT
  then forall dest src sbpr dbpr dcc height swz m,
         exists m', reshapeImage dstT srcT dest src sbpr dbpr dcc height swz m = Some m'
  else reshapeImage dstT srcT 1000 0 (4 * sizeof dstT) (4 * sizeof dstT) 4 1 false all_127
       = None.
Proof.
  destruct (rescale_defined dstT srcT) eqn:E.
  - intros dest src sbpr dbpr dcc height swz m.
    apply reshapeImage_completes. intros m0 a.
    apply (rescale_defined_total dstT srcT (load srcT m0 a) E);
      [apply load_ty | apply load_wf].
  - destruct dstT, srcT; try discriminate E; vm_compute; reflexivity.
Qed.

(** X9: the rescale takes the value 0 to 0 for every pair of component
    types; it takes the source's maximum value to the destination's maximum
    value exactly for the pairs in [full_scale_exact], and for no pair with a
    32-bit integer destination. *)
Theorem rescale_endpoints dstT srcT :
  rescale dstT srcT (mkV srcT 0) = Some (mkV dstT 0) /\
  if full_scale_exact dstT srcT
  then rescale dstT srcT (getMaxValue srcT) = Some (getMaxValue dstT)
  else rescale dstT srcT (getMaxValue srcT) <> Some (getMaxValue dstT).
Proof.
  destruct dstT, srcT; (split; [vm_compute; reflexivity|]);
    vm_compute; first [reflexivity | discriminate].
Qed.

(** ** The dispatcher on supported inputs *)

(** For supported inputs the dispatcher runs the kernel instantiated at the
    destination's and the source's component types, in this order. *)
Lemma dispatch_kernel computeDataSize dst srcType srcBytes sbpr width height swz m dT sT n :
  componentType (type dst) = Some dT ->
  componentType srcType = Some sT ->
  channelCount (format dst) = Some n ->
  reshapeImageDispatch computeDataSize dst srcType srcBytes sbpr width height swz m =
  (m' <- reshapeImage dT sT (buffer dst) srcBytes (to_size_t sbpr)
           (to_size_t (to_int (computeDataSize (format dst) (type dst)
                                 (if stride dst =? 0 then to_size_t width else stride dst)
                                 1 (alignment dst))))
           n (to_size_t height) swz m ;;
   Some (true, m')).
Proof.
  destruct dst as [b f t s al]. cbn [format type buffer stride alignment].
  unfold reshapeImageDispatch. cbn [format type buffer stride alignment].
  intros Hd Hs Hn.
  destruct f; try discriminate Hn; injection Hn as <-;
    destruct t; try discriminate Hd; injection Hd as <-;
    destruct srcType; try discriminate Hs; injection Hs as <-; reflexivity.
Qed.

Lemma supported_componentType t :
  supported_type t = true -> exists c, componentType t = Some c.
Proof. destruct t; try discriminate; eexists; reflexivity. Qed.

Lemma supported_channelCount f :
  supported_format f = true -> exists n, channelCount f = Some n /\ 0 <= n.
Proof. destruct f; try discriminate; eexists; (split; [reflexivity | lia]). Qed.

Lemma dispatch_unsupported computeDataSize dst srcType srcBytes sbpr width height swz m :
  supported_format (format dst) && supported_type (type dst) && supported_type srcType
  = false ->
  reshapeImageDispatch computeDataSize dst srcType srcBytes sbpr width height swz m =
  Some (false, m).
Proof.
  destruct dst as [b f t s al]. cbn [format type]. unfold reshapeImageDispatch.
  cbn [format type buffer stride alignment]. intros H.
  destruct f; try reflexivity; destruct t; try reflexivity;
    destruct srcType; try reflexivity; discriminate H.
Qed.

(** Whenever the dispatcher returns, it returns true exactly when the
    destination format is RGB or RGBA and both types are among UBYTE, FLOAT,
    INT and UINT. *)
Lemma dispatch_flag computeDataSize dst srcType srcBytes sbpr width
    height swz m b m' :
  reshapeImageDispatch computeDataSize dst srcType srcBytes sbpr width height swz m =
  Some (b, m') ->
  b = supported_format (format dst) && supported_type (type dst) && supported_type srcType.
Proof.
  intros H.
  destruct (supported_format (format dst) && supported_type (type dst)
            && supported_type srcType) eqn:E.
  - apply andb_prop in E. destruct E as [E Es]. apply andb_prop in E. destruct E as [Ef Et].
    destruct (supported_componentType _ Et) as (dT & HdT).
    destruct (supported_componentType _ Es) as (sT & HsT).
    destruct (supported_channelCount _ Ef) as (n & Hn & _).
    rewrite (dispatch_kernel _ _ _ _ _ _ _ _ _ dT sT n HdT HsT Hn) in H.
    destruct (reshapeImage dT sT _ _ _ _ _ _ _ _); cbn [bind] in H; congruence.
  - rewrite dispatch_unsupported in H by exact E. congruence.
Qed.

(** X10: whenever the dispatcher returns, it returns true exactly when the
    destination format is RGB or RGBA and both types are among UBYTE, FLOAT,
    INT and UINT. *)
Theorem dispatch_true_iff_supported computeDataSize dst srcType srcBytes sbpr width
    height swz m b m' :
  reshapeImageDispatch computeDataSize dst srcType srcBytes sbpr width height swz m =
  Some (b, m') ->
  b = supported_format (format dst) && supported_type (type dst) && supported_type srcType.
Proof.
  exact (dispatch_flag computeDataSize dst srcType srcBytes sbpr width height swz m b m').
Qed.

Lemma dispatch_true_iff_supported_witness :
  match reshapeImageDispatch computeDataSize_spec (mkDescriptor 100 RGB UBYTE 0 1) UBYTE
          0 8 2 1 false image_2x1 with
  | Some (b, _) => b = true
  | None => False
  end.
Proof.
  destruct (reshapeImageDispatch computeDataSize_spec (mkDescriptor 100 RGB UBYTE 0 1)
              UBYTE 0 8 2 1 false image_2x1) as [[b m']|] eqn:E.
  - exact (dispatch_true_iff_supported computeDataSize_spec
             (mkDescriptor 100 RGB UBYTE 0 1) UBYTE 0 8 2 1 false image_2x1 b m' E).
  - vm_compute in E. discriminate E.
Defined.

(** X11: a call of the dispatcher that returns true has changed no byte
    outside the destination rows: the rows start at the descriptor's buffer,
    lie [computeDataSize] bytes apart, number [height], and each covers
    [width * channels] components of the destination type, [width] being the
    kernel's own ([srcBytesPerRow / sizeof(destination component) / 4]). *)
Theorem dispatch_writes_within_rows computeDataSize dst srcType srcBytes sbpr width
    height swz m m' dT n :
  componentType (type dst) = Some dT ->
  channelCount (format dst) = Some n ->
  reshapeImageDispatch computeDataSize dst srcType srcBytes sbpr width height swz m =
  Some (true, m') ->
  forall a,
    (forall row, 0 <= row < to_size_t height ->
       ~ dstRowBytes dT (buffer dst)
           (to_size_t (to_int (computeDataSize (format dst) (type dst)
                                 (if stride dst =? 0 then to_size_t width else stride dst)
                                 1 (alignment dst))))
           (imageWidth dT (to_size_t sbpr)) n row a) ->
    m' a = m a.
Proof.
  intros HdT Hn H a Ha.
  pose proof (dispatch_flag computeDataSize dst srcType srcBytes sbpr
                width height swz m true m' H) as E.
  symmetry in E. apply andb_prop in E. destruct E as [_ Es].
  destruct (supported_componentType _ Es) as (sT & HsT).
  rewrite (dispatch_kernel _ _ _ _ _ _ _ _ _ dT sT n HdT HsT Hn) in H.
  destruct (reshapeImage dT sT _ _ _ _ _ _ _ _) as [m1|] eqn:Ek; cbn [bind] in H;
    [|discriminate H].
  injection H as <-.
  rewrite reshapeImage_closed_form in Ek.
  assert (Hn0 : 0 <= n) by (destruct (format dst); try discriminate Hn; injection Hn as <-; lia).
  exact (imageAt_frame dT sT _ _ _ _ n _ swz Hn0 m m1 Ek a Ha).
Qed.

Lemma dispatch_writes_within_rows_witness :
  match reshapeImageDispatch computeDataSize_spec (mkDescriptor 100 RGB UBYTE 0 4) UBYTE
          0 8 2 1 false image_2x1 with
  | Some (_, m') => m' 106 = image_2x1 106
  | None => False
  end.
Proof.
  destruct (reshapeImageDispatch computeDataSize_spec (mkDescriptor 100 RGB UBYTE 0 4)
              UBYTE 0 8 2 1 false image_2x1) as [[b m']|] eqn:E.
  - assert (Eb : b = true)
      by exact (dispatch_flag computeDataSize_spec (mkDescriptor 100 RGB UBYTE 0 4)
                  UBYTE 0 8 2 1 false image_2x1 b m' E).
    subst b.
    apply (dispatch_writes_within_rows computeDataSize_spec
             (mkDescriptor 100 RGB UBYTE 0 4) UBYTE 0 8 2 1 false image_2x1 m'
             uint8_t 3 eq_refl eq_refl E).
    intros row Hrow. change (to_size_t 1) with 1 in Hrow.
    unfold dstRowBytes. cbn [format type buffer stride alignment].
    change (to_size_t (to_int (computeDataSize_spec RGB UBYTE
                                 (if 0 =? 0 then to_size_t 2 else 0) 1 4))) with 8.
    change (imageWidth uint8_t (to_size_t 8)) with 2. change (sizeof uint8_t) with 1.
    lia.
  - vm_compute in E. discriminate E.
Defined.

(** X12: with a supported destination format and a pair of supported types
    on which the rescale is always defined (a FLOAT destination, UINT on
    either side of an integer pair, UBYTE to UBYTE), the dispatcher returns
    true on every memory and for every geometry. *)
Theorem dispatch_completes computeDataSize dst srcType srcBytes sbpr width height swz m
    dT sT :
  supported_format (format dst) = true ->
  componentType (type dst) = Some dT ->
  componentType srcType = Some sT ->
  rescale_defined dT sT = true ->
  exists m',
    reshapeImageDispatch computeDataSize dst srcType srcBytes sbpr width height swz m =
    Some (true, m').
Proof.
  intros Hf HdT HsT Hdef.
  destruct (supported_channelCount _ Hf) as (n & Hn & _).
  rewrite (dispatch_kernel _ _ _ _ _ _ _ _ _ dT sT n HdT HsT Hn).
  destruct (reshapeImage_completes dT sT (buffer dst) srcBytes (to_size_t sbpr)
              (to_size_t (to_int (computeDataSize (format dst) (type dst)
                                    (if stride dst =? 0 then to_size_t width else stride dst)
                                    1 (alignment dst))))
              n (to_size_t height) swz m) as (m' & Hm').
  - intros m0 a. apply (rescale_defined_total dT sT (load sT m0 a) Hdef);
      [apply load_ty | apply load_wf].
  - exists m'. rewrite Hm'. reflexivity.
Qed.

Lemma dispatch_completes_witness :
  exists m',
    reshapeImageDispatch computeDataSize_spec (mkDescriptor 100 RGBA FLOAT 0 4) UINT
      0 32 2 1 true pixel_u32 = Some (true, m').
Proof.
  apply (dispatch_completes computeDataSize_spec (mkDescriptor 100 RGBA FLOAT 0 4) UINT
           0 32 2 1 true pixel_u32 float uint32_t); reflexivity.
Defined.

(** ** The dispatcher of the older header *)

Lemma PixelDataType_eqb_refl t : PixelDataType_eqb t t = true.
Proof. destruct t; cbn; try reflexivity. apply Nat.eqb_refl. Qed.

(** X13: the older dispatcher, called with matching source and destination
    types (what it asserts), always returns; it returns true exactly when
    the format is RGB or RGBA and the type is one of UBYTE, FLOAT, INT, UINT;
    when it returns false the memory is unchanged, and when it returns true
    no byte outside the destination rows (spaced by the caller's
    [dstBytesPerRow]) has changed. *)
Theorem V1_dispatch_spec NDEBUG dst srcBytes sbpr dbpr height swz m :
  exists b m',
    V1_reshapeImageDispatch NDEBUG dst (type dst) srcBytes sbpr dbpr height swz m =
    Some (b, m') /\
    b = supported_format (format dst) && supported_type (type dst) /\
    (b = false -> m' = m) /\
    (forall dT n a,
       componentType (type dst) = Some dT -> channelCount (format dst) = Some n ->
       (forall row, 0 <= row < to_size_t height ->
          ~ dstRowBytes dT (buffer dst) (to_size_t dbpr)
              (imageWidth dT (to_size_t sbpr)) n row a) ->
       m' a = m a).
Proof.
  destruct dst as [buf f t s al]. cbn [format type buffer].
  unfold V1_reshapeImageDispatch. cbn [format type buffer].
  rewrite PixelDataType_eqb_refl. rewrite andb_false_r.
  assert (Unsupported : supported_format f && supported_type t = false ->
            exists b m',
              Some (false, m) = Some (b, m') /\
              b = supported_format f && supported_type t /\
              (b = false -> m' = m) /\
              (forall dT n a,
                 componentType t = Some dT -> channelCount f = Some n ->
                 (forall row, 0 <= row < to_size_t height ->
                    ~ dstRowBytes dT buf (to_size_t dbpr)
                        (imageWidth dT (to_size_t sbpr)) n row a) ->
                 m' a = m a)).
  { intros E. exists false, m. rewrite E. repeat split; reflexivity. }
  assert (Supported : forall dT n,
            componentType t = Some dT -> channelCount f = Some n ->
            exists b m',
              (m' <- V1.reshapeImage dT buf srcBytes (to_size_t sbpr) (to_size_t dbpr) n
                       (to_size_t height) swz m ;; Some (true, m')) = Some (b, m') /\
              b = supported_format f && supported_type t /\
              (b = false -> m' = m) /\
              (forall dT' n' a,
                 componentType t = Some dT' -> channelCount f = Some n' ->
                 (forall row, 0 <= row < to_size_t height ->
                    ~ dstRowBytes dT' buf (to_size_t dbpr)
                        (imageWidth dT' (to_size_t sbpr)) n' row a) ->
                 m' a = m a)).
  { intros dT n HdT Hn.
    assert (Hn0 : 0 <= n) by (destruct f; try discriminate Hn; injection Hn as <-; lia).
    destruct (imageRun_total dT dT Some (swizzleIndex swz) (getMaxValue dT)
                buf srcBytes (to_size_t sbpr) (to_size_t dbpr) n (to_size_t height) m
                ltac:(intros m0 a; eexists; reflexivity)) as (m' & H).
    exists true, m'. rewrite V1_reshapeImage_closed_form, H. cbn [bind].
    split; [reflexivity|]. split.
    - destruct f; try discriminate Hn; destruct t; try discriminate HdT; reflexivity.
    - split; [discriminate|].
      intros dT' n' a HdT' Hn' Ha.
      rewrite HdT in HdT'. injection HdT' as <-. rewrite Hn in Hn'. injection Hn' as <-.
      exact (imageRun_frame dT dT Some (swizzleIndex swz) (getMaxValue dT)
               buf srcBytes (to_size_t sbpr) (to_size_t dbpr) n (to_size_t height)
               (copy_sound dT) (getMaxValue_ty dT) Hn0 m m' H a Ha). }
  destruct t; try (apply Unsupported; destruct f; reflexivity);
    destruct f; try (apply Unsupported; reflexivity);
    cbv beta iota zeta;
    match goal with
    | |- context [V1.reshapeImage ?dT _ _ _ _ ?n] =>
        exact (Supported dT n eq_refl eq_refl)
    end.
Qed.

Lemma V1_dispatch_spec_witness :
  exists b m',
    V1_reshapeImageDispatch false (mkDescriptor 100 RGB UBYTE 0 1) UBYTE 0 8 8 1 true
      image_2x1 = Some (b, m') /\
    b = true /\ m' 106 = image_2x1 106.
Proof.
  destruct (V1_dispatch_spec false (mkDescriptor 100 RGB UBYTE 0 1) 0 8 8 1 true image_2x1)
    as (b & m' & Hrun & Hb & _ & Hframe).
  exists b, m'. split; [exact Hrun|]. split; [exact Hb|].
  apply (Hframe uint8_t 3 106 eq_refl eq_refl).
  intros row Hrow. change (to_size_t 1) with 1 in Hrow.
  unfold dstRowBytes. cbn [buffer].
  change (to_size_t 8) with 8. change (imageWidth uint8_t 8) with 2.
  change (sizeof uint8_t) with 1. lia.
Defined.

(** ** The generic reshape: sizes and round trip *)

Lemma srcWordCount_pixelCount t scc n :
  0 <= scc ->
  size_div (n / sizeof t) scc = if scc =? 0 then None else Some (pixelCount t scc n).
Proof.
  intros Hscc. pose proof (sizeof_pos t) as Hsz. unfold size_div, pixelCount.
  destruct (scc =? 0) eqn:E; [reflexivity|].
  apply Z.eqb_neq in E. rewrite Z.div_div by lia. reflexivity.
Qed.

(** X14: the generic reshape depends on the byte count only through the
    number of whole source pixels: two byte counts with the same
    [floor(numSrcBytes / (componentSize * srcChannelCount))] give the same
    result, so the bytes of a trailing partial pixel are ignored. *)
Theorem reshape_whole_pixels_only t scc dcc dest src n n' m :
  0 <= scc ->
  pixelCount t scc n = pixelCount t scc n' ->
  reshape t scc dcc dest src n m = reshape t scc dcc dest src n' m.
Proof.
  intros Hscc E. rewrite !reshape_closed_form.
  rewrite !srcWordCount_pixelCount by exact Hscc. rewrite E. reflexivity.
Qed.

Lemma reshape_whole_pixels_only_witness :
  reshape uint8_t 3 4 100 0 8 image_2x1 = reshape uint8_t 3 4 100 0 6 image_2x1.
Proof.
  apply (reshape_whole_pixels_only uint8_t 3 4 100 0 8 6 image_2x1); [lia | reflexivity].
Defined.

(** X15: given fewer bytes than one source pixel (in particular none), the
    generic reshape returns without touching the memory. *)
Theorem reshape_less_than_a_pixel t scc dcc dest src n m :
  0 < scc -> 0 <= n < sizeof t * scc ->
  reshape t scc dcc dest src n m = Some m.
Proof.
  intros Hscc Hn. rewrite reshape_closed_form.
  rewrite srcWordCount_pixelCount by lia.
  destruct (scc =? 0) eqn:E; [apply Z.eqb_eq in E; lia|].
  unfold pixelCount. rewrite Z.div_small by exact Hn.
  cbn [bind]. unfold pixelsAt. apply for_loop_empty. lia.
Qed.

Lemma reshape_less_than_a_pixel_witness :
  reshape float 3 4 100 0 11 image_2x1 = Some image_2x1.
Proof.
  apply (reshape_less_than_a_pixel float 3 4 100 0 11 image_2x1);
    [lia | change (sizeof float) with 4; lia].
Defined.

(** The generic reshape on buffers that do not overlap: it completes, copies
    the common channels and fills the others. *)
Lemma reshape_run t scc dcc dest src n m :
  0 < scc -> 0 <= dcc -> Z.min scc dcc < 2 ^ 31 ->
  (forall a, src <= a < src + pixelCount t scc n * scc * sizeof t ->
             dest <= a < dest + pixelCount t scc n * dcc * sizeof t -> False) ->
  exists m',
    reshape t scc dcc dest src n m = Some m' /\
    (forall p ch, 0 <= p < pixelCount t scc n -> 0 <= ch < Z.min scc dcc ->
       load t m' (elem t dest (p * dcc + ch)) = load t m (elem t src (p * scc + ch))) /\
    (forall p ch, 0 <= p < pixelCount t scc n -> scc <= ch < dcc ->
       load t m' (elem t dest (p * dcc + ch)) = getMaxValue t).
Proof.
  intros Hscc Hdcc Hmin Hdis.
  assert (Encopy : to_size_t (to_int (Z.min scc dcc)) = Z.min scc dcc)
    by (apply int_size_t_small; lia).
  destruct (pixelsAt_total t t Some (fun ch => ch) (getMaxValue t) scc dcc
              (Z.min scc dcc) (pixelCount t scc n) src dest m
              ltac:(intros m0 a; eexists; reflexivity)) as (m' & Hm').
  assert (Hspec := fun p => pixelsAt_spec t t Some (fun ch => ch) (getMaxValue t)
                       scc dcc (Z.min scc dcc) (copy_sound t) (getMaxValue_ty t)
                       (getMaxValue_wf t) ltac:(lia) ltac:(lia) ltac:(lia) Hdcc
                       ltac:(intros ch Hch; lia)
                       (pixelCount t scc n) src dest m m' p Hm' Hdis).
  exists m'. split; [|split].
  - rewrite reshape_closed_form, srcWordCount_pixelCount by lia.
    destruct (scc =? 0) eqn:E; [apply Z.eqb_eq in E; lia|].
    cbn [bind]. rewrite Encopy. exact Hm'.
  - intros p ch Hp Hch. destruct (Hspec p Hp) as [H1 _].
    specialize (H1 ch Hch). cbv beta in H1. congruence.
  - intros p ch Hp Hch. destruct (Hspec p Hp) as [_ H2]. apply H2. assumption.
Qed.

(** X16: expanding whole pixels from [scc] to [dcc >= scc] channels into a
    second buffer and truncating that one back to [scc] channels into a third
    returns the original components. *)
Theorem reshape_expand_truncate t scc dcc src tmp dst n m :
  0 < scc -> scc <= dcc < 2 ^ 31 ->
  (forall a, src <= a < src + pixelCount t scc n * scc * sizeof t ->
             tmp <= a < tmp + pixelCount t scc n * dcc * sizeof t -> False) ->
  (forall a, tmp <= a < tmp + pixelCount t scc n * dcc * sizeof t ->
             dst <= a < dst + pixelCount t scc n * scc * sizeof t -> False) ->
  exists m1 m2,
    reshape t scc dcc tmp src n m = Some m1 /\
    reshape t dcc scc dst tmp (pixelCount t scc n * dcc * sizeof t) m1 = Some m2 /\
    forall p ch, 0 <= p < pixelCount t scc n -> 0 <= ch < scc ->
      load t m2 (elem t dst (p * scc + ch)) = load t m (elem t src (p * scc + ch)).
Proof.
  intros Hscc Hdcc Hd1 Hd2. pose proof (sizeof_pos t) as Hsz.
  destruct (reshape_run t scc dcc tmp src n m Hscc ltac:(lia) ltac:(lia) Hd1)
    as (m1 & Hrun1 & Hcopy1 & _).
  assert (Ecount : pixelCount t dcc (pixelCount t scc n * dcc * sizeof t) =
                   pixelCount t scc n).
  { unfold pixelCount at 1.
    replace (pixelCount t scc n * dcc * sizeof t)
      with (pixelCount t scc n * (sizeof t * dcc)) by lia.
    apply Z.div_mul. nia. }
  destruct (reshape_run t dcc scc dst tmp (pixelCount t scc n * dcc * sizeof t) m1
              ltac:(lia) ltac:(lia) ltac:(lia)) as (m2 & Hrun2 & Hcopy2 & _).
  { rewrite Ecount. exact Hd2. }
  rewrite Ecount in Hcopy2.
  exists m1, m2. split; [exact Hrun1|]. split; [exact Hrun2|].
  intros p ch Hp Hch.
  rewrite (Hcopy2 p ch Hp ltac:(lia)). apply Hcopy1; [exact Hp | lia].
Qed.

Lemma reshape_expand_truncate_witness :
  exists m1 m2,
    reshape uint8_t 3 4 100 0 6 image_2x1 = Some m1 /\
    reshape uint8_t 4 3 200 100 (pixelCount uint8_t 3 6 * 4 * sizeof uint8_t) m1 = Some m2 /\
    load uint8_t m2 (elem uint8_t 200 (1 * 3 + 2)) =
    load uint8_t image_2x1 (elem uint8_t 0 (1 * 3 + 2)).
Proof.
  destruct (reshape_expand_truncate uint8_t 3 4 0 100 200 6 image_2x1
              ltac:(lia) ltac:(lia)) as (m1 & m2 & H1 & H2 & H3).
  - intros a. change (pixelCount uint8_t 3 6) with 2. change (sizeof uint8_t) with 1. lia.
  - intros a. change (pixelCount uint8_t 3 6) with 2. change (sizeof uint8_t) with 1. lia.
  - exists m1, m2. split; [exact H1|]. split; [exact H2|].
    apply H3; [change (pixelCount uint8_t 3 6) with 2; lia | lia].
Defined.

(** ** TMat22 *)

(** X17: [translation] never yields a matrix: it assigns column 2 of a matrix
    that has columns 0 and 1, which the bounds assertion of the accessor
    rejects. *)
Theorem Mat2_translation_out_of_bounds (T : Type) (zero one : T) (t : Mat2.TVec2 T) :
  Mat2.translation zero one t = None /\
  forall (m : Mat2.TMat22 T) column,
    Mat2.set_col m column t <> None <-> column = 0 \/ column = 1.
Proof.
  split; [reflexivity|].
  intros m column. unfold Mat2.set_col, Mat2.NUM_COLS.
  destruct (0 <=? column) eqn:E1; destruct (column <? 2) eqn:E2; cbn [andb];
    try apply Z.leb_le in E1; try apply Z.leb_gt in E1;
    try apply Z.ltb_lt in E2; try apply Z.ltb_ge in E2;
    split; intros H; try discriminate; try lia; try (exfalso; apply H; reflexivity).
Qed.

(** X18: [swap] exchanges the two matrices and leaves every other object of
    the store alone; called with the same object on both sides it leaves it
    unchanged. *)
Theorem Mat2_swap_exchanges (T : Type) (s : Mat2.store (T := T)) (lhs rhs : Z) :
  Mat2.swap s lhs rhs lhs = s rhs /\
  Mat2.swap s lhs rhs rhs = s lhs /\
  forall o, o <> lhs -> o <> rhs -> Mat2.swap s lhs rhs o = s o.
Proof.
  unfold Mat2.swap, Mat2.write. cbv zeta.
  split; [|split].
  - rewrite !Z.eqb_refl. destruct (lhs =? rhs) eqn:E.
    + apply Z.eqb_eq in E. subst rhs. rewrite ?Z.eqb_refl.
      destruct (s lhs) as [[a b] [c d]]. reflexivity.
    + assert (E' : (rhs =? lhs) = false) by (rewrite Z.eqb_sym; exact E).
      rewrite ?E'. destruct (s lhs) as [[a b] [c d]], (s rhs) as [[e f] [g h]].
      reflexivity.
  - rewrite !Z.eqb_refl. destruct (rhs =? lhs) eqn:E.
    + apply Z.eqb_eq in E. subst rhs. rewrite ?Z.eqb_refl.
      destruct (s lhs) as [[a b] [c d]]. reflexivity.
    + destruct (s lhs) as [[a b] [c d]], (s rhs) as [[e f] [g h]]. reflexivity.
  - intros o Hl Hr. apply Z.eqb_neq in Hl. apply Z.eqb_neq in Hr.
    rewrite !Hl, !Hr. reflexivity.
Qed.

Lemma Mat2_swap_exchanges_witness :
  Mat2.swap (fun o => if o =? 1 then Mat2.of_elements 1 2 3 4 else Mat2.of_elements 5 6 7 8)
    1 2 3 = Mat2.of_elements 5 6 7 8.
Proof.
  apply (Mat2_swap_exchanges Z
           (fun o => if o =? 1 then Mat2.of_elements 1 2 3 4 else Mat2.of_elements 5 6 7 8)
           1 2); lia.
Defined.

(** ** Where the rescale is the proportional one *)

Lemma narrow_type t :
  sizeof t < 4 -> is_float t || is_unsigned32 t || is_int32 t = false.
Proof. destruct t; cbn; intros H; try reflexivity; lia. Qed.

(** X20: between the 8- and 16-bit component types the rescale is the exact
    quotient [floor(v * dstMaxValue / srcMaxValue)], computed in [int]
    without overflow and then narrowed to the destination type; the
    narrowing changes nothing unless the destination is narrower than the
    source. *)
Theorem rescale_exact_for_narrow_types dstT srcT z :
  sizeof dstT < 4 -> sizeof srcT < 4 -> in_range srcT z = true ->
  rescale dstT srcT (mkV srcT z) =
  Some (mkV dstT (wrap dstT (exact_rescale dstT srcT z))) /\
  (sizeof srcT <= sizeof dstT ->
   wrap dstT (exact_rescale dstT srcT z) = exact_rescale dstT srcT z).
Proof.
  intros Hd Hs Hz. split.
  - exact (rescale_small_int dstT srcT z (narrow_type dstT Hd) (narrow_type srcT Hs) Hz).
  - intros Hle. apply wrap_id. apply in_range_spec. apply in_range_spec in Hz.
    unfold exact_rescale.
    destruct dstT; cbn in Hd; try lia; destruct srcT; cbn in Hs, Hle; try lia;
      cbn [getMaxValue rep]; change (2 ^ 8) with 256 in *; change (2 ^ 16) with 65536 in *;
      (split; [apply Z.div_pos; lia | apply Z.div_lt_upper_bound; lia]).
Qed.

Lemma rescale_exact_for_narrow_types_witness :
  rescale uint16_t uint8_t (mkV uint8_t 51) =
  Some (mkV uint16_t (wrap uint16_t (exact_rescale uint16_t uint8_t 51))).
Proof.
  exact (proj1 (rescale_exact_for_narrow_types uint16_t uint8_t 51
                  ltac:(cbn; lia) ltac:(cbn; lia) eq_refl)).
Defined.
